(** * N2 problem viewer: the snapshot builder of
      [openmdao/devtools/problem_viewer/problem_viewer.py]

    A shallow embedding of [_get_var_dict], [_get_tree_dict],
    [_get_declare_partials] and [_get_viewer_data], and the properties of
    the snapshot they build. *)

From stdpp Require Import gmap strings list sorting.
From Stdlib Require Import ZArith Lia Ascii.

Set Warnings "-register-all".

(** ** Exceptions *)

(** The Python exceptions the module can raise. *)
Inductive exn := KeyError | ValueError | TypeError.

Inductive result (A : Type) :=
| Ok (a : A)
| Raise (e : exn).
Arguments Ok {A} a.
Arguments Raise {A} e.

Global Instance result_ret : MRet result := λ A a, Ok a.
Global Instance result_bind : MBind result := λ A B k m,
  match m with
  | Ok a => k a
  | Raise e => Raise e
  end.

(** Local mutable state of a call (a dict, a counter, a list that grows)
    is threaded through; an exception drops it. *)
Definition M (S A : Type) : Type := S → result (A * S).

Global Instance M_ret {S} : MRet (M S) := λ A a s, Ok (a, s).
Global Instance M_bind {S} : MBind (M S) := λ A B k m s,
  match m s with
  | Ok (a, s') => k a s'
  | Raise e => Raise e
  end.

Definition lift {S A} (r : result A) : M S A := λ s,
  match r with
  | Ok a => Ok (a, s)
  | Raise e => Raise e
  end.

(** ** Python values, dicts and strings *)

(** A Python object, as far as the viewer looks at it: [type(v).__name__]. *)
Inductive pyvalue :=
| PyNone
| PyBool (b : bool)
| PyInt (n : Z)
| PyStr (s : string)
| PyObj (cls : string).

Definition type_name (v : pyvalue) : string :=
  match v with
  | PyNone => "NoneType"
  | PyBool _ => "bool"
  | PyInt _ => "int"
  | PyStr _ => "str"
  | PyObj cls => cls
  end.

(** [d[k]] on a dict that is only looked up. *)
Definition getitem {V} (d : gmap string V) (k : string) : result V :=
  match d !! k with
  | Some v => Ok v
  | None => Raise KeyError
  end.

(** A dict that is iterated: its items in iteration order. *)
Definition odict (V : Type) : Type := list (string * V).

Fixpoint odict_get {V} (d : odict V) (k : string) : option V :=
  match d with
  | [] => None
  | (k', v) :: d' => if decide (k' = k) then Some v else odict_get d' k
  end.

Definition keys {V} (d : odict V) : list string := d.*1.

(** [d[k] = v]: an existing key keeps its place, a new one goes last. *)
Fixpoint odict_set {V} (d : odict V) (k : string) (v : V) : odict V :=
  match d with
  | [] => [(k, v)]
  | (k', v') :: d' =>
      if decide (k' = k) then (k, v) :: d' else (k', v') :: odict_set d' k v
  end.

(** [s.rsplit(sep, 1)]: split at the last [sep]; one piece when there is
    none. *)
Fixpoint rsplit_last (sep : Ascii.ascii) (s : string) : option (string * string) :=
  match s with
  | EmptyString => None
  | String c s' =>
      match rsplit_last sep s' with
      | Some (h, t) => Some (String c h, t)
      | None => if decide (c = sep) then Some (EmptyString, s') else None
      end
  end.

Definition rsplit1 (sep : Ascii.ascii) (s : string) : list string :=
  match rsplit_last sep s with
  | Some (h, t) => [h; t]
  | None => [s]
  end.

(** [s.rsplit('.', 1)[0]] *)
Definition rsplit_dot_0 (s : string) : string :=
  default s (head (rsplit1 "."%char s)).

(** ** The model: systems *)

Inductive io := input | output.

Definition meta : Type := gmap string pyvalue.

Record Comm := { comm_size : nat; comm_rank : nat }.

(** What every [System] carries. *)
Record SystemAttrs := {
  sys_name : string;
  sys_pathname : string;
  sys_comm : Comm;
  _var_abs_names : io → list string;
  _var_discrete : io → odict meta;
  _var_abs2meta : gmap string meta;
  _var_abs2prom : io → gmap string string;
  (** the [SOLVER] label of the configured solver, if any *)
  sys_linear_solver : option string;
  sys_nonlinear_solver : option string
}.

(** The classes [_get_tree_dict] tells apart.  An [ImplicitComponent]
    carries what [overrides_method] answers for [solve_linear] and
    [solve_nonlinear]. *)
Inductive comp_class :=
| ImplicitComponent (overrides_solve_linear overrides_solve_nonlinear : bool)
| ExecComp
| MetaModelStructuredComp
| MetaModelUnStructuredComp
| IndepVarComp
| ExplicitComponent
| OtherComponent.

Inductive System :=
| Component (a : SystemAttrs) (cls : comp_class)
    (_subjacs_info : list (string * string))
| Group (a : SystemAttrs) (parallel_group : bool)
    (_conn_global_abs_in2out : odict (option string))
    (_subsystems_myproc : list System).

Definition attrs (s : System) : SystemAttrs :=
  match s with
  | Component a _ _ => a
  | Group a _ _ _ => a
  end.

Definition is_Group (s : System) : bool :=
  match s with Group _ _ _ _ => true | _ => false end.

Definition is_ImplicitComponent (s : System) : bool :=
  match s with Component _ (ImplicitComponent _ _) _ => true | _ => false end.

(** ** The snapshot: variable and tree dicts *)

Record var_dict := {
  vd_name : string;
  vd_type : string;
  vd_implicit : option bool;   (* the key is there for outputs only *)
  vd_dtype : string
}.

Record tree_attrs := {
  t_name : string;
  t_type : string;
  t_subsystem_type : string;
  t_is_parallel : bool;
  t_component_type : option string;
  t_linear_solver : string;
  t_nonlinear_solver : string
}.

Inductive tree_node :=
| VarNode (v : var_dict)
| SysNode (d : tree_attrs) (children : list tree_node).

Definition children_of (t : tree_node) : list tree_node :=
  match t with
  | VarNode _ => []
  | SysNode _ ch => ch
  end.

(** ** [_get_var_dict] *)

Definition _get_var_dict (system : System) (typ : io) (name : string)
  : result var_dict :=
  '(meta, name) ←
    match odict_get (_var_discrete (attrs system) typ) name with
    | Some meta => Ok (meta, name)
    | None =>
        meta ← getitem (_var_abs2meta (attrs system)) name;
        name ← getitem (_var_abs2prom (attrs system) typ) name;
        Ok (meta, name)
    end;
  value ← getitem meta "value";
  Ok {| vd_name := name;
        vd_type := match typ with input => "param" | output => "unknown" end;
        vd_implicit := match typ with
                       | input => None
                       | output => Some (is_ImplicitComponent system)
                       end;
        vd_dtype := type_name value |}.

(** ** The parts of [_get_tree_dict] *)

(** [component_execution_orders] and [component_execution_index[0]]. *)
Definition exec_state : Type := gmap string nat * nat.

Definition component_type_of (cls : comp_class) : option string :=
  match cls with
  | ImplicitComponent _ _ => Some "implicit"
  | ExecComp => Some "exec"
  | MetaModelStructuredComp | MetaModelUnStructuredComp => Some "metamodel"
  | IndepVarComp => Some "indep"
  | ExplicitComponent => Some "explicit"
  | OtherComponent => None
  end.

Definition solver_label (o : option string) : string := default EmptyString o.

Definition linear_solver_of (s : System) : string :=
  match s with
  | Component _ (ImplicitComponent ovl _) _ =>
      if ovl then "solve_linear" else EmptyString
  | _ => solver_label (sys_linear_solver (attrs s))
  end.

Definition nonlinear_solver_of (s : System) : string :=
  match s with
  | Component _ (ImplicitComponent _ ovn) _ =>
      if ovn then "solve_nonlinear" else EmptyString
  | _ => solver_label (sys_nonlinear_solver (attrs s))
  end.

(** The last lines of [_get_tree_dict]: the solvers, the children and the
    relabelling of a nameless system as the root. *)
Definition finish_tree_dict (system : System) (subsystem_type : string)
    (component_type : option string) (is_parallel : bool)
    (children : list tree_node) : tree_node :=
  let nm := sys_name (attrs system) in
  SysNode
    {| t_name := if decide (nm = EmptyString) then "root" else nm;
       t_type := if decide (nm = EmptyString) then "root" else "subsystem";
       t_subsystem_type := subsystem_type;
       t_is_parallel := is_parallel;
       t_component_type := component_type;
       t_linear_solver := linear_solver_of system;
       t_nonlinear_solver := nonlinear_solver_of system |}
    children.

(** The variables of a leaf: for each direction the declared variables,
    then the discrete ones. *)
Definition var_children (system : System) (typ : io) : result (list tree_node) :=
  cont ← mapM (_get_var_dict system typ) (_var_abs_names (attrs system) typ);
  disc ← mapM (_get_var_dict system typ) (keys (_var_discrete (attrs system) typ));
  Ok (VarNode <$> (cont ++ disc)).

(** ** [_get_declare_partials] *)

Fixpoint _get_declare_partials (system : System) : list string :=
  match system with
  | Component _ _ subjacs =>
      (λ abs_key : string * string, abs_key.1 +:+ " > " +:+ abs_key.2) <$> subjacs
  | Group _ _ _ subs => concat (_get_declare_partials <$> subs)
  end.

(** ** Sorting *)

(** Python compares tuples at the first position where they differ. *)
Definition lex_le {A B} (RA : relation A) (RB : relation B) : relation (A * B) :=
  λ x y, (x.1 ≠ y.1 ∧ RA x.1 y.1) ∨ (x.1 = y.1 ∧ RB x.2 y.2).

(** [None] against a string: Python 2 puts [None] first.  The keys of a
    dict differ, so the items of a dict never get this far. *)
Definition opt_le (x y : option string) : Prop :=
  match x, y with
  | None, _ => True
  | Some _, None => False
  | Some a, Some b => String.le a b
  end.

Definition item_le : relation (string * option string) := lex_le String.le opt_le.
Definition path_pair_le : relation (string * string) := lex_le String.le String.le.
Definition arrow_le : relation (nat * nat) := lex_le le le.

Global Instance lex_le_dec {A B} `{EqDecision A} (RA : relation A) (RB : relation B)
  `{!RelDecision RA, !RelDecision RB} : RelDecision (lex_le RA RB).
Proof. intros x y. unfold lex_le. apply _. Defined.

Global Instance opt_le_dec : RelDecision opt_le.
Proof. intros [a|] [b|]; simpl; apply _. Defined.

Global Instance item_le_dec : RelDecision item_le.
Proof. unfold item_le. apply _. Defined.
Global Instance path_pair_le_dec : RelDecision path_pair_le.
Proof. unfold path_pair_le. apply _. Defined.
Global Instance arrow_le_dec : RelDecision arrow_le.
Proof. unfold arrow_le. apply _. Defined.

(** [sorted(d.items())] *)
Definition sorted_items (d : odict (option string)) : odict (option string) :=
  merge_sort item_le d.

(** [edges_list.sort()] *)
Definition sort_arrows (l : list (nat * nat)) : list (nat * nat) :=
  merge_sort arrow_le l.

(** ** The system graph and its cycles *)

(** A networkx [DiGraph] as its adjacency: every node with its successors. *)
Definition DiGraph : Type := list (string * list string).

(** The edges of [G] between kept nodes, listed along the adjacency. *)
Definition induced_edges (G : DiGraph) (nodes : gset string)
  : list (string * string) :=
  '(n, nbrs) ← G;
  if decide (n ∈ nodes)
  then (λ nbr, (n, nbr)) <$> filter (λ nbr, nbr ∈ nodes) nbrs
  else [].

(** [G.subgraph(nodes).edges()] yields these edges.  The order is networkx's:
    the view walks the adjacency of [G] or the set of kept nodes, whichever
    is shorter, and the set in hash order.  The code fixes none of it, so
    the walk is taken as networkx gives it. *)
Definition edge_walk : Type :=
  ∀ (G : DiGraph) (nodes : gset string),
    { edges : list (string * string) | edges ≡ₚ induced_edges G nodes }.

Definition subgraph_edges (walk : edge_walk) (G : DiGraph) (nodes : gset string)
  : list (string * string) :=
  proj1_sig (walk G nodes).

(** [n for n in li if exe_low <= comp_exec_orders[n] <= exe_high]: every
    member of [li] is looked up. *)
Definition window_nodes (comp_exec_orders : gmap string nat) (li : gset string)
    (exe_low exe_high : nat) : result (gset string) :=
  ns ← mapM (λ n, o ← getitem comp_exec_orders n; Ok (n, o)) (elements li);
  Ok (list_to_set (filter (λ no, exe_low ≤ no.2 ∧ no.2 ≤ exe_high) ns).*1).

(** ** The pathname index *)

Record index_state := {
  sys_pathnames_list : list string;
  sys_pathnames_dict : gmap string nat
}.

Definition index_pathname (pathname : string) (st : index_state) : index_state :=
  match sys_pathnames_dict st !! pathname with
  | Some _ => st
  | None =>
      let l := sys_pathnames_list st ++ [pathname] in
      {| sys_pathnames_list := l;
         sys_pathnames_dict := <[pathname := length l - 1]> (sys_pathnames_dict st) |}
  end.

(** A loop over a list that carries an accumulator. *)
Fixpoint for_each {S A B} (l : list A) (body : A → B → M S B) (acc : B) : M S B :=
  match l with
  | [] => mret acc
  | x :: l' => acc' ← body x acc; for_each l' body acc'
  end.

(** ** The connections *)

Record connection := {
  src : string;
  tgt : string;
  cycle_arrows : option (list (nat * nat))   (* [None]: the key is absent *)
}.

(** The body of [for edge in subg.edges()]. *)
Definition register_edge (src_to_tgt_str : string) (edge : string * string)
    (edges_list : list (nat * nat)) : M index_state (list (nat * nat)) :=
  let edge_str := edge.1 +:+ " " +:+ edge.2 in
  if decide (edge_str ≠ src_to_tgt_str) then
    λ st,
      let st := index_pathname edge.1 st in
      let st := index_pathname edge.2 st in
      src ← getitem (sys_pathnames_dict st) edge.1;
      tgt ← getitem (sys_pathnames_dict st) edge.2;
      Ok (edges_list ++ [(src, tgt)], st)
  else mret edges_list.

(** The body of [for li in scc_list], on [count] and [edges_list]. *)
Definition scan_scc (walk : edge_walk) (G : DiGraph)
    (comp_exec_orders : gmap string nat)
    (src_subsystem tgt_subsystem : string) (li : gset string)
    (acc : nat * list (nat * nat)) : M index_state (nat * list (nat * nat)) :=
  let '(count, edges_list) := acc in
  if decide (src_subsystem ∈ li ∧ tgt_subsystem ∈ li) then
    let count := S count in
    if decide (1 < count) then lift (Raise ValueError)
    else
      exe_tgt ← lift (getitem comp_exec_orders tgt_subsystem);
      exe_src ← lift (getitem comp_exec_orders src_subsystem);
      let exe_low := exe_tgt `min` exe_src in
      let exe_high := exe_tgt `max` exe_src in
      nodes ← lift (window_nodes comp_exec_orders li exe_low exe_high);
      edges_list ← for_each (subgraph_edges walk G nodes)
                     (register_edge (src_subsystem +:+ " " +:+ tgt_subsystem))
                     edges_list;
      mret (count, edges_list)
  else mret acc.

(** The cycle arrows of one connection. *)
Definition cycle_edges (walk : edge_walk) (G : DiGraph)
    (scc_list : list (gset string))
    (comp_exec_orders : gmap string nat) (out_abs in_abs : string)
  : M index_state (list (nat * nat)) :=
  let src_subsystem := rsplit_dot_0 out_abs in
  let tgt_subsystem := rsplit_dot_0 in_abs in
  acc ← for_each scc_list
          (scan_scc walk G comp_exec_orders src_subsystem tgt_subsystem) (0, []);
  mret acc.2.

(** What is appended to [connections_list] for one connection. *)
Definition emit_connection (out_abs in_abs : string) (edges_list : list (nat * nat))
  : connection :=
  match edges_list with
  | [] => {| src := out_abs; tgt := in_abs; cycle_arrows := None |}
  | _ :: _ => {| src := out_abs; tgt := in_abs;
                 cycle_arrows := Some (sort_arrows edges_list) |}
  end.

(** The body of [for in_abs, out_abs in iteritems(sorted_abs_input2src)]. *)
Definition connect (walk : edge_walk) (G : DiGraph)
    (scc_list : list (gset string))
    (comp_exec_orders : gmap string nat) (item : string * option string)
    (connections_list : list connection) : M index_state (list connection) :=
  match item.2 with
  | None => mret connections_list
  | Some out_abs =>
      edges_list ← cycle_edges walk G scc_list comp_exec_orders out_abs item.1;
      mret (connections_list ++ [emit_connection out_abs item.1 edges_list])
  end.

Definition extract_connections (walk : edge_walk) (G : DiGraph)
    (scc_list : list (gset string))
    (comp_exec_orders : gmap string nat)
    (sorted_abs_input2src : odict (option string))
  : result (list connection * index_state) :=
  for_each sorted_abs_input2src (connect walk G scc_list comp_exec_orders) []
    {| sys_pathnames_list := []; sys_pathnames_dict := ∅ |}.

(** ** The data sources and the snapshot *)

Record Driver := {
  driver_class_name : string;          (* [driver.__class__.__name__] *)
  driver_is_DOEDriver : bool;
  driver_options : odict pyvalue;
  driver_opt_settings : option (odict pyvalue)   (* the attribute, if there *)
}.

Record Problem := {
  model : System;
  driver : Driver
}.

(** What [_get_viewer_data] can be handed. *)
Inductive data_source :=
| OfProblem (p : Problem)
| OfSystem (s : System)
| OfStr (filename : string)
| OfOther.

Record driver_dict := {
  dd_name : option string;
  dd_type : option string;
  dd_options : option (odict pyvalue);
  dd_opt_settings : option (odict pyvalue)
}.

(** The values of the returned dict. *)
Inductive snapshot_value :=
| VTree (t : tree_node)
| VNames (l : list string)
| VConnections (l : list connection)
| VAbs2prom (m : io → gmap string string)
| VDriver (d : driver_dict)
| VVars (v : odict (odict pyvalue)).

Definition snapshot : Type := odict snapshot_value.

(** A call of [_get_viewer_data]: what it leaves of its argument, the
    warnings it issued and what it returned or raised. *)
Record outcome := {
  source_after : data_source;
  warnings : list string;
  returned : result snapshot
}.

(** ** [_get_tree_dict] and [_get_viewer_data] *)

Section Viewer.

(** [system.comm.allgather(children)]: the lists every process of the
    system's communicator contributed, in rank order, this process's
    among them. *)
Variable allgather : SystemAttrs → list tree_node → list (list tree_node).

Fixpoint _get_tree_dict (system : System) (is_parallel : bool)
  : M exec_state tree_node :=
  match system with
  | Component a cls _ => λ '(component_execution_orders, component_execution_index),
      let st := (<[sys_pathname a := component_execution_index]>
                   component_execution_orders,
                 S component_execution_index) in
      ins ← var_children system input;
      outs ← var_children system output;
      Ok (finish_tree_dict system "component" (component_type_of cls)
            is_parallel (ins ++ outs), st)
  | Group a parallel_group _ subs =>
      let is_parallel := is_parallel || parallel_group in
      children ← (fix build (l : list System) : M exec_state (list tree_node) :=
                    match l with
                    | [] => mret []
                    | s :: l' =>
                        t ← _get_tree_dict s is_parallel;
                        ts ← build l';
                        mret (t :: ts)
                    end) subs;
      let children :=
        if decide (1 < comm_size (sys_comm a)) then
          let children :=
            match subs with
            | s0 :: _ =>
                if decide (comm_rank (sys_comm (attrs s0)) ≠ 0) then []
                else children
            | [] => children
            end in
          concat (allgather a children)
        else children in
      mret (finish_tree_dict system "group" None is_parallel children)
  end.

(** [root_group.compute_sys_graph(comps_only=True)] *)
Variable compute_sys_graph : System → DiGraph.
(** [nx.strongly_connected_components] *)
Variable strongly_connected_components : DiGraph → list (gset string).
(** [G.subgraph(...).edges()] *)
Variable walk : edge_walk.
Variable get_design_vars : System → odict (odict pyvalue).
Variable get_responses : System → odict (odict pyvalue).
(** [CaseReader(filename, pre_load=False).problem_metadata] *)
Variable problem_metadata : string → result snapshot.

Definition set_conn_global_abs_in2out (root_group : System)
    (d : odict (option string)) : System :=
  match root_group with
  | Group a pg _ subs => Group a pg d subs
  | Component _ _ _ => root_group
  end.

Definition conn_global_abs_in2out (root_group : System) : odict (option string) :=
  match root_group with
  | Group _ _ conn _ => conn
  | Component _ _ _ => []
  end.

(** [[s for s in scc if len(s) > 1]] *)
Definition cyclic_sccs (G : DiGraph) : list (gset string) :=
  filter (λ s : gset string, 1 < size s) (strongly_connected_components G).

(** From [data_dict = {}] to [return data_dict], with the root group as the
    call leaves it. *)
Definition build_data_dict (root_group : System) (drv : driver_dict)
  : System * result snapshot :=
  match _get_tree_dict root_group false (∅, 0) with
  | Raise e => (root_group, Raise e)
  | Ok (tree, (comp_exec_orders, _)) =>
      let data_dict := odict_set [] "tree" (VTree tree) in
      let sorted_abs_input2src := sorted_items (conn_global_abs_in2out root_group) in
      let root_group := set_conn_global_abs_in2out root_group sorted_abs_input2src in
      let G := compute_sys_graph root_group in
      let scc_list := cyclic_sccs G in
      (root_group,
       '(connections_list, ix) ←
          extract_connections walk G scc_list comp_exec_orders sorted_abs_input2src;
       let data_dict :=
         odict_set data_dict "sys_pathnames_list" (VNames (sys_pathnames_list ix)) in
       let data_dict :=
         odict_set data_dict "connections_list" (VConnections connections_list) in
       let data_dict :=
         odict_set data_dict "abs2prom" (VAbs2prom (_var_abs2prom (attrs root_group))) in
       let data_dict := odict_set data_dict "driver" (VDriver drv) in
       let data_dict :=
         odict_set data_dict "design_vars" (VVars (get_design_vars root_group)) in
       let data_dict :=
         odict_set data_dict "responses" (VVars (get_responses root_group)) in
       let data_dict :=
         odict_set data_dict "declare_partials_list"
           (VNames (_get_declare_partials root_group)) in
       Ok data_dict)
  end.

Definition driver_dict_of (drv : Driver) : driver_dict :=
  let driver_type := if driver_is_DOEDriver drv then "doe" else "optimization" in
  {| dd_name := Some (driver_class_name drv);
     dd_type := Some driver_type;
     dd_options :=
       Some (omap (λ k, (λ v, (k, v)) <$> odict_get (driver_options drv) k)
               (keys (driver_options drv)));
     dd_opt_settings :=
       if decide (driver_type = "optimization") then driver_opt_settings drv
       else None |}.

Definition no_driver : driver_dict :=
  {| dd_name := None; dd_type := None; dd_options := None;
     dd_opt_settings := None |}.

Definition not_a_group_warning : string :=
  "The model is not a Group, viewer data is unavailable.".

Definition _get_viewer_data (data_source : data_source) : outcome :=
  match data_source with
  | OfProblem p =>
      let root_group := model p in
      if is_Group root_group then
        let '(root_group, r) := build_data_dict root_group (driver_dict_of (driver p)) in
        {| source_after := OfProblem {| model := root_group; driver := driver p |};
           warnings := [];
           returned := r |}
      else
        {| source_after := data_source;
           warnings := [not_a_group_warning];
           returned := Ok [] |}
  | OfSystem (Group a _ _ _ as g) =>
      if decide (sys_pathname a = EmptyString) then
        let '(root_group, r) := build_data_dict g no_driver in
        {| source_after := OfSystem root_group; warnings := []; returned := r |}
      else
        {| source_after := data_source; warnings := []; returned := Ok [] |}
  | OfStr filename =>
      {| source_after := data_source; warnings := [];
         returned := problem_metadata filename |}
  | OfSystem (Component _ _ _) | OfOther =>
      {| source_after := data_source; warnings := [];
         returned := Raise TypeError |}
  end.

(** The execution orders and the SCC sets a build on [root_group] works
    with. *)
Definition exec_orders_of (root_group : System) : gmap string nat :=
  match _get_tree_dict root_group false (∅, 0) with
  | Ok (_, (comp_exec_orders, _)) => comp_exec_orders
  | Raise _ => ∅
  end.

Definition sorted_root (root_group : System) : System :=
  set_conn_global_abs_in2out root_group
    (sorted_items (conn_global_abs_in2out root_group)).

Definition scc_list_of (root_group : System) : list (gset string) :=
  cyclic_sccs (compute_sys_graph (sorted_root root_group)).

End Viewer.

(** The pathnames of the leaf components below a system, in depth-first
    order of [_subsystems_myproc]. *)
Fixpoint leaf_pathnames (system : System) : list string :=
  match system with
  | Component a _ _ => [sys_pathname a]
  | Group _ _ _ subs => concat (leaf_pathnames <$> subs)
  end.

(** What visiting one leaf does to the execution orders and the counter. *)
Definition record_leaf (st : exec_state) (pathname : string) : exec_state :=
  (<[pathname := st.2]> st.1, S st.2).


(** Induction on systems that reaches the subsystems of a group. *)
Section System_induction.
Variable P : System → Prop.
Hypothesis P_component : ∀ a cls sj, P (Component a cls sj).
Hypothesis P_group :
  ∀ a pg conn subs, Forall P subs → P (Group a pg conn subs).

Fixpoint System_nested_ind (s : System) : P s :=
  match s with
  | Component a cls sj => P_component a cls sj
  | Group a pg conn subs =>
      P_group a pg conn subs
        ((fix all (l : list System) : Forall P l :=
            match l with
            | [] => @List.Forall_nil _ P
            | x :: l' => @List.Forall_cons _ P x l' (System_nested_ind x) (all l')
            end) subs)
  end.
End System_induction.

(** ** What the properties speak of *)

(** The connections a mapping declares: its [(target, source)] items
    whose source is not [None], in the order of the mapping. *)
Definition defined_sources (d : odict (option string)) : list (string * string) :=
  omap (λ item : string * option string, (λ out_abs, (item.1, out_abs)) <$> item.2) d.

(** The pathname index reads back: an index the dict gives out is the
    place of that pathname in the list. *)
Definition index_wf (st : index_state) : Prop :=
  ∀ p i, sys_pathnames_dict st !! p = Some i → sys_pathnames_list st !! i = Some p.

(** [li] holds both owners of a connection. *)
Definition holds_both (src_subsystem tgt_subsystem : string) (li : gset string) : Prop :=
  src_subsystem ∈ li ∧ tgt_subsystem ∈ li.

(** An arrow [(s, t)], read back through the list of pathnames, joins two
    members of an SCC set that holds both owners of the connection, and
    their execution orders lie between those of the two owners. *)
Definition arrow_within (scc_list : list (gset string))
    (comp_exec_orders : gmap string nat) (names : list string)
    (src_subsystem tgt_subsystem : string) (arrow : nat * nat) : Prop :=
  ∃ ps pt li o_src o_tgt o_s o_t,
    names !! arrow.1 = Some ps ∧ names !! arrow.2 = Some pt
    ∧ li ∈ scc_list ∧ holds_both src_subsystem tgt_subsystem li
    ∧ ps ∈ li ∧ pt ∈ li
    ∧ comp_exec_orders !! src_subsystem = Some o_src
    ∧ comp_exec_orders !! tgt_subsystem = Some o_tgt
    ∧ comp_exec_orders !! ps = Some o_s
    ∧ comp_exec_orders !! pt = Some o_t
    ∧ (o_src `min` o_tgt ≤ o_s ∧ o_s ≤ o_src `max` o_tgt)
    ∧ (o_src `min` o_tgt ≤ o_t ∧ o_t ≤ o_src `max` o_tgt).

(** What the extractor appends for a declared connection. *)
Definition emitted (walk : edge_walk) (G : DiGraph)
    (scc_list : list (gset string))
    (orders : gmap string nat) (names : list string)
    (decl : string * string) (c : connection) : Prop :=
  ∃ edges_list st st',
    cycle_edges walk G scc_list orders decl.2 decl.1 st = Ok (edges_list, st')
    ∧ c = emit_connection decl.2 decl.1 edges_list
    ∧ Forall (arrow_within scc_list orders names
                (rsplit_dot_0 decl.2) (rsplit_dot_0 decl.1)) edges_list.

(** The data sources other than the name of a recorded file. *)
Definition is_filename (ds : data_source) : bool :=
  match ds with OfStr _ => true | _ => false end.

(** The root group a live data source is built from, if it has one. *)
Definition root_group_of (ds : data_source) : option System :=
  match ds with
  | OfProblem p => if is_Group (model p) then Some (model p) else None
  | OfSystem (Group a _ _ _ as g) =>
      if decide (sys_pathname a = EmptyString) then Some g else None
  | _ => None
  end.

Definition driver_of (ds : data_source) : driver_dict :=
  match ds with
  | OfProblem p => driver_dict_of (driver p)
  | _ => no_driver
  end.

(** The data source with the connection mapping of its root group
    replaced. *)
Definition with_connections (ds : data_source) (d : odict (option string))
  : data_source :=
  match ds with
  | OfProblem p =>
      OfProblem {| model := set_conn_global_abs_in2out (model p) d;
                   driver := driver p |}
  | OfSystem s => OfSystem (set_conn_global_abs_in2out s d)
  | _ => ds
  end.

Definition connections_of (ds : data_source) : odict (option string) :=
  match ds with
  | OfProblem p => conn_global_abs_in2out (model p)
  | OfSystem s => conn_global_abs_in2out s
  | _ => []
  end.

(** The keys of a snapshot built from a live model. *)
Definition top_level_keys : list string :=
  ["tree"; "sys_pathnames_list"; "connections_list"; "abs2prom"; "driver";
   "design_vars"; "responses"; "declare_partials_list"].

(** ** More of what the properties speak of *)

(** The leaf components below a system, in depth-first order of
    [_subsystems_myproc]. *)
Fixpoint leaf_components (system : System) : list System :=
  match system with
  | Component _ _ _ => [system]
  | Group _ _ _ subs => concat (leaf_components <$> subs)
  end.

(** A variable name [_get_var_dict] finds what it needs for: a discrete
    variable with a value, or else a declared one with a value and a
    promoted name. *)
Definition has_value (m : gmap string pyvalue) : Prop := is_Some (m !! "value").

Definition var_known (a : SystemAttrs) (typ : io) (name : string) : Prop :=
  match odict_get (_var_discrete a typ) name with
  | Some m => has_value m
  | None =>
      ∃ m, _var_abs2meta a !! name = Some m ∧ has_value m
           ∧ is_Some (_var_abs2prom a typ !! name)
  end.

Definition leaf_vars_known (system : System) : Prop :=
  ∀ typ, Forall (var_known (attrs system) typ)
           (_var_abs_names (attrs system) typ
            ++ keys (_var_discrete (attrs system) typ)).

(** No group of the system spans more than one process. *)
Fixpoint single_process (system : System) : bool :=
  match system with
  | Component _ _ _ => true
  | Group a _ _ subs =>
      bool_decide (comm_size (sys_comm a) ≤ 1) && forallb single_process subs
  end.

Definition is_ParallelGroup (system : System) : bool :=
  match system with
  | Component _ _ _ => false
  | Group _ parallel_group _ _ => parallel_group
  end.

Fixpoint has_parallel_group (system : System) : bool :=
  match system with
  | Component _ _ _ => false
  | Group _ parallel_group _ subs =>
      parallel_group || existsb has_parallel_group subs
  end.

(** The system nodes of a tree dict, a parent before its children. *)
Fixpoint sys_nodes (t : tree_node) : list tree_attrs :=
  match t with
  | VarNode _ => []
  | SysNode d children => d :: concat (sys_nodes <$> children)
  end.

(** The names of the component nodes of a tree dict, in depth-first
    order. *)
Definition component_names (t : tree_node) : list string :=
  t_name <$> filter (λ d, t_subsystem_type d = "component") (sys_nodes t).

(** The name a system is shown under. *)
Definition shown_name (system : System) : string :=
  if decide (sys_name (attrs system) = EmptyString) then "root"
  else sys_name (attrs system).

(** The pathname index is exact: the dict and the list say the same. *)
Definition index_exact (st : index_state) : Prop :=
  ∀ p i, sys_pathnames_dict st !! p = Some i ↔ sys_pathnames_list st !! i = Some p.

(** The index is exact and lists only pathnames that satisfy [Q]. *)
Definition listed (Q : string → Prop) (st : index_state) : Prop :=
  index_exact st ∧ Forall Q (sys_pathnames_list st).

(** A pathname of a system found in a cycle. *)
Definition in_cycle (scc_list : list (gset string)) (p : string) : Prop :=
  ∃ li, li ∈ scc_list ∧ p ∈ li.

(** Every member of every SCC set has an execution order. *)
Definition orders_cover (orders : gmap string nat) (scc_list : list (gset string))
  : Prop :=
  ∀ li n, li ∈ scc_list → n ∈ li → is_Some (orders !! n).

(** The SCC sets that hold both owners of a connection. *)
Definition matching_sets (scc_list : list (gset string)) (out_abs in_abs : string)
  : list (gset string) :=
  filter (holds_both (rsplit_dot_0 out_abs) (rsplit_dot_0 in_abs)) scc_list.

(** Every connection with a source has at most one matching SCC set. *)
Definition at_most_one_match (scc_list : list (gset string))
    (items : odict (option string)) : Prop :=
  Forall (λ item : string * option string,
            match item.2 with
            | Some out_abs => length (matching_sets scc_list out_abs item.1) ≤ 1
            | None => True
            end) items.

(** [' '.join(edge)] *)
Definition edge_str (edge : string * string) : string := edge.1 +:+ " " +:+ edge.2.

(** The members of [li] whose execution order lies in the window. *)
Definition in_window (orders : gmap string nat) (lo hi : nat) (n : string) : bool :=
  match orders !! n with
  | Some o => bool_decide (lo ≤ o ∧ o ≤ hi)
  | None => false
  end.

(** The edges the cycle scan of a connection is to register, as pairs of
    pathnames and in the order they are met: for each matching SCC set,
    the edges networkx yields for its members in the window of the two
    owners, the direct edge left out. *)
Definition expected_cycle_edges (walk : edge_walk) (G : DiGraph)
    (scc_list : list (gset string))
    (orders : gmap string nat) (out_abs in_abs : string) : list (string * string) :=
  let s := rsplit_dot_0 out_abs in
  let t := rsplit_dot_0 in_abs in
  let o_s := default 0 (orders !! s) in
  let o_t := default 0 (orders !! t) in
  li ← matching_sets scc_list out_abs in_abs;
  filter (λ e, edge_str e ≠ s +:+ " " +:+ t)
    (subgraph_edges walk G
       (filter (λ n, in_window orders (o_t `min` o_s) (o_t `max` o_s) n = true) li)).

(** The same edges, whatever order networkx yields them in: the edges of
    the graph between those members. *)
Definition window_cycle_edges (G : DiGraph) (scc_list : list (gset string))
    (orders : gmap string nat) (out_abs in_abs : string) : list (string * string) :=
  let s := rsplit_dot_0 out_abs in
  let t := rsplit_dot_0 in_abs in
  let o_s := default 0 (orders !! s) in
  let o_t := default 0 (orders !! t) in
  li ← matching_sets scc_list out_abs in_abs;
  filter (λ e, edge_str e ≠ s +:+ " " +:+ t)
    (induced_edges G
       (filter (λ n, in_window orders (o_t `min` o_s) (o_t `max` o_s) n = true) li)).

(** An arrow reads back, through the list of pathnames, as an edge. *)
Definition reads (names : list string) (arrow : nat * nat) (edge : string * string)
  : Prop :=
  names !! arrow.1 = Some edge.1 ∧ names !! arrow.2 = Some edge.2.

(** A connection with no cycle arrows. *)
Definition plain_connection (decl : string * string) : connection :=
  {| src := decl.2; tgt := decl.1; cycle_arrows := None |}.

(** ** The first lines of [view_model] *)

(** The values of the dict [view_model] serializes: those of the snapshot
    and the [options] it adds. *)
Inductive model_value :=
| OfSnapshot (v : snapshot_value)
| Options (use_declare_partial_info : bool).

(** [model_data = _get_viewer_data(data_source)], given what the call
    returned or raised, then
    [model_data['options'] = {'use_declare_partial_info': ...}]. *)
Definition of_snapshot (snap : snapshot) : odict model_value :=
  (λ kv : string * snapshot_value, (kv.1, OfSnapshot kv.2)) <$> snap.

Definition view_model_data (model_data : result snapshot)
    (use_declare_partial_info : bool) : result (odict model_value) :=
  model_data ← model_data;
  Ok (odict_set (of_snapshot model_data) "options"
        (Options use_declare_partial_info)).


(** * Example models *)

Definition ex_attrs (name pathname : string) (ins outs : list string)
    (disc : io → odict meta) : SystemAttrs :=
  {| sys_name := name;
     sys_pathname := pathname;
     sys_comm := {| comm_size := 1; comm_rank := 0 |};
     _var_abs_names := λ typ, match typ with input => ins | output => outs end;
     _var_discrete := disc;
     _var_abs2meta :=
       list_to_map ((λ v, (v, {[ "value" := PyObj "ndarray" ]})) <$> (ins ++ outs));
     _var_abs2prom := λ typ,
       list_to_map ((λ v, (v, v)) <$> match typ with input => ins | output => outs end);
     sys_linear_solver := None;
     sys_nonlinear_solver := None |}.

(** Two components that feed each other. *)
Definition ex_A_discrete (typ : io) : odict meta :=
  match typ with
  | input => [("mode", {[ "value" := PyStr "fast" ]})]
  | output => [("count", {[ "value" := PyInt 3 ]})]
  end.
Definition ex_A_attrs : SystemAttrs :=
  ex_attrs "A" "A" ["A.x"; "A.u"] ["A.y"] ex_A_discrete.
Definition ex_A : System :=
  Component ex_A_attrs ExplicitComponent [("A.y", "A.x")].
Definition ex_B : System :=
  Component (ex_attrs "B" "B" ["B.x"] ["B.y"] (λ _, [])) ExecComp [].

Definition ex_root_attrs : SystemAttrs := ex_attrs EmptyString EmptyString [] [] (λ _, []).

(** [A.u] has no source; the mapping is not in sorted order. *)
Definition ex_conn : odict (option string) :=
  [("B.x", Some "A.y"); ("A.x", Some "B.y"); ("A.u", None)].

Definition ex_feedback : System := Group ex_root_attrs false ex_conn [ex_A; ex_B].

(** The same group, met below the root. *)
Definition ex_sub_attrs : SystemAttrs := ex_attrs "sub" "sub" [] [] (λ _, []).
Definition ex_subgroup : System := Group ex_sub_attrs false ex_conn [ex_A; ex_B].

Definition ex_driver : Driver :=
  {| driver_class_name := "Driver";
     driver_is_DOEDriver := false;
     driver_options := [("debug_print", PyObj "list")];
     driver_opt_settings := None |}.

Definition ex_allgather : SystemAttrs → list tree_node → list (list tree_node) :=
  λ _ children, [children].
Definition ex_graph : System → DiGraph :=
  λ _, [("A", ["B"]); ("B", ["A"])].
Definition ex_scc : DiGraph → list (gset string) :=
  λ _, [ {[ "A"; "B" ]} ].
(** A list of sets that is no partition: two of them hold [A] and [B]. *)
Definition ex_scc_overlap : DiGraph → list (gset string) :=
  λ _, [ {[ "A"; "B" ]}; {[ "B"; "A"; "C" ]} ].
Definition ex_vars : System → odict (odict pyvalue) := λ _, [].
Definition ex_metadata : string → result snapshot := λ _, Ok [].

(** networkx walking the adjacency of the graph, and walking it backwards. *)
Definition adjacency_walk : edge_walk :=
  λ G nodes, exist _ (induced_edges G nodes) (Permutation_refl _).
Definition backward_walk : edge_walk :=
  λ G nodes, exist _ (reverse (induced_edges G nodes)) (reverse_Permutation _).

Definition ex_run : data_source → outcome :=
  _get_viewer_data ex_allgather ex_graph ex_scc adjacency_walk
    ex_vars ex_vars ex_metadata.

Definition ex_snap : snapshot :=
  match returned (ex_run (OfSystem ex_feedback)) with
  | Ok snap => snap
  | Raise _ => []
  end.

Definition dummy_var : var_dict :=
  {| vd_name := "none"; vd_type := "none"; vd_implicit := None; vd_dtype := "none" |}.

Definition ex_tree : tree_node :=
  match odict_get ex_snap "tree" with
  | Some (VTree t) => t
  | _ => VarNode dummy_var
  end.

Definition ex_leaf : tree_node :=
  match _get_tree_dict ex_allgather ex_A false (∅, 0) with
  | Ok (t, _) => t
  | Raise _ => VarNode dummy_var
  end.

Definition ex_orders : gmap string nat := {[ "A" := 0; "B" := 1 ]}.

Definition ex_connections : list connection :=
  [ {| src := "B.y"; tgt := "A.x"; cycle_arrows := Some [(0, 1)] |};
    {| src := "A.y"; tgt := "B.x"; cycle_arrows := Some [(1, 0)] |} ].

(** * More example models *)

(** A component that declares an input its metadata does not know. *)
Definition ex_unknown_attrs : SystemAttrs :=
  {| sys_name := "C";
     sys_pathname := "C";
     sys_comm := {| comm_size := 1; comm_rank := 0 |};
     _var_abs_names := λ typ, match typ with input => ["C.x"] | output => [] end;
     _var_discrete := λ _, [];
     _var_abs2meta := ∅;
     _var_abs2prom := λ _, ∅;
     sys_linear_solver := None;
     sys_nonlinear_solver := None |}.
Definition ex_unknown : System := Component ex_unknown_attrs ExplicitComponent [].

(** The two components under a parallel group. *)
Definition ex_parallel : System := Group ex_root_attrs true ex_conn [ex_A; ex_B].

(** A group over two processes, seen from the process that owns [B],
    whose communicator rank is 1; the other process gathers [A]. *)
Definition ex_two_procs_attrs : SystemAttrs :=
  {| sys_name := EmptyString;
     sys_pathname := EmptyString;
     sys_comm := {| comm_size := 2; comm_rank := 1 |};
     _var_abs_names := λ _, [];
     _var_discrete := λ _, [];
     _var_abs2meta := ∅;
     _var_abs2prom := λ _, ∅;
     sys_linear_solver := None;
     sys_nonlinear_solver := None |}.
Definition ex_B_rank1 : System :=
  Component
    {| sys_name := "B";
       sys_pathname := "B";
       sys_comm := {| comm_size := 1; comm_rank := 1 |};
       _var_abs_names := λ _, [];
       _var_discrete := λ _, [];
       _var_abs2meta := ∅;
       _var_abs2prom := λ _, ∅;
       sys_linear_solver := None;
       sys_nonlinear_solver := None |}
    ExecComp [].
Definition ex_gathered_A : tree_node :=
  SysNode
    {| t_name := "A"; t_type := "subsystem"; t_subsystem_type := "component";
       t_is_parallel := true; t_component_type := Some "explicit";
       t_linear_solver := EmptyString; t_nonlinear_solver := EmptyString |}
    [].
Definition ex_allgather_2 : SystemAttrs → list tree_node → list (list tree_node) :=
  λ _ children, [[ex_gathered_A]; children].

Definition ex_index : index_state :=
  {| sys_pathnames_list := ["A"; "B"];
     sys_pathnames_dict := {[ "A" := 0; "B" := 1 ]} |}.

Definition ex_sorted_conn : odict (option string) :=
  [("A.u", None); ("A.x", Some "B.y"); ("B.x", Some "A.y")].

Definition ex_parallel_tree : tree_node :=
  match _get_tree_dict ex_allgather ex_parallel false (∅, 0) with
  | Ok (t, _) => t
  | Raise _ => VarNode dummy_var
  end.

Definition ex_two_procs : System :=
  Group ex_two_procs_attrs true [] [ex_B_rank1].

Definition ex_two_procs_tree : tree_node :=
  match _get_tree_dict ex_allgather_2 ex_two_procs false (∅, 0) with
  | Ok (t, _) => t
  | Raise _ => VarNode dummy_var
  end.

Definition ex_problem : Problem := {| model := ex_feedback; driver := ex_driver |}.

Definition ex_problem_snap : snapshot :=
  match returned (ex_run (OfProblem ex_problem)) with
  | Ok snap => snap
  | Raise _ => []
  end.

Definition ex_orders_3 : gmap string nat := {[ "A" := 0; "B" := 1; "C" := 2 ]}.

Definition ex_cycle : list (gset string) := [ {[ "A"; "B" ]} ].
Definition ex_overlap : list (gset string) := [ {[ "A"; "B" ]}; {[ "B"; "A"; "C" ]} ].
Definition ex_elsewhere : list (gset string) := [ {[ "C"; "D" ]} ].
Definition ex_G : DiGraph := [("A", ["B"]); ("B", ["A"])].

(** A ring of three components: [A] feeds [B], [B] feeds [C], and [C]
    feeds back into [A]. *)
Definition ex_ring : DiGraph := [("A", ["B"]); ("B", ["C"]); ("C", ["A"])].
Definition ex_ring_scc : list (gset string) := [ {[ "A"; "B"; "C" ]} ].
Definition ex_ring_conn : odict (option string) := [("A.x", Some "C.y")].
Definition ex_ring_index : index_state :=
  {| sys_pathnames_list := ["B"; "C"; "A"];
     sys_pathnames_dict := {[ "B" := 0; "C" := 1; "A" := 2 ]} |}.
Definition ex_ring_connections : list connection :=
  [ {| src := "C.y"; tgt := "A.x"; cycle_arrows := Some [(0, 1); (2, 0)] |} ].


(** * Properties *)

Section Properties.

Context (allgather : SystemAttrs → list tree_node → list (list tree_node)).
Context (compute_sys_graph : System → DiGraph).
Context (strongly_connected_components : DiGraph → list (gset string)).
Context (walk : edge_walk).
Context (get_design_vars get_responses : System → odict (odict pyvalue)).
Context (problem_metadata : string → result snapshot).

Local Abbreviation get_tree_dict := (_get_tree_dict allgather).
Local Abbreviation get_viewer_data :=
  (_get_viewer_data allgather compute_sys_graph strongly_connected_components
     walk get_design_vars get_responses problem_metadata).
Local Abbreviation build :=
  (build_data_dict allgather compute_sys_graph strongly_connected_components
     walk get_design_vars get_responses).

Local Abbreviation scc_of := (scc_list_of compute_sys_graph strongly_connected_components).
Local Abbreviation orders_of := (exec_orders_of allgather).

(** ** The monads *)

Lemma result_bind_Ok {A B} (m : result A) (k : A → result B) b :
  m ≫= k = Ok b → ∃ a, m = Ok a ∧ k a = Ok b.
Proof. destruct m as [a|e]; simpl; [eauto | discriminate]. Qed.

Lemma M_bind_Ok {S A B} (m : M S A) (k : A → M S B) s b s' :
  (m ≫= k) s = Ok (b, s') → ∃ a s1, m s = Ok (a, s1) ∧ k a s1 = Ok (b, s').
Proof.
  unfold mbind, M_bind. destruct (m s) as [[a s1]|e]; [eauto | discriminate].
Qed.

Lemma M_ret_Ok {S A} (a b : A) (s s' : S) :
  (mret a : M S A) s = Ok (b, s') → a = b ∧ s = s'.
Proof. unfold mret, M_ret. by intros [= -> ->]. Qed.

Lemma lift_Ok {S A} (r : result A) (s : S) a s' :
  lift r s = Ok (a, s') → r = Ok a ∧ s' = s.
Proof. destruct r; simpl; intros; simplify_eq; auto. Qed.

Lemma mapM_Ok_Forall2 {A B} (f : A → result B) l l' :
  mapM f l = Ok l' → Forall2 (λ x y, f x = Ok y) l l'.
Proof.
  revert l'. induction l as [|x l IH]; intros l' H; simpl in H.
  - injection H as <-. constructor.
  - apply result_bind_Ok in H as (y & Hy & H).
    apply result_bind_Ok in H as (ys & Hys & H).
    injection H as <-. constructor; auto.
Qed.

(** ** The tree builder and the execution orders *)

Lemma get_tree_dict_state system : ∀ is_parallel st tree st',
  get_tree_dict system is_parallel st = Ok (tree, st') →
  st' = foldl record_leaf st (leaf_pathnames system).
Proof.
  induction system as [a cls sj | a pg conn subs IH] using System_nested_ind;
    intros is_parallel st tree st' H.
  - destruct st as [orders idx]. simpl in H.
    apply result_bind_Ok in H as (ins & _ & H).
    apply result_bind_Ok in H as (outs & _ & H).
    by simplify_eq.
  - simpl in H. apply M_bind_Ok in H as (children & st1 & Hch & H).
    apply M_ret_Ok in H as [_ <-]. clear tree. simpl.
    revert st children st1 Hch.
    induction IH as [|s l Hs _ IHl]; intros st children st1 Hch.
    + by apply M_ret_Ok in Hch as [_ <-].
    + apply M_bind_Ok in Hch as (t & st2 & Ht & Hch).
      apply M_bind_Ok in Hch as (ts & st3 & Hts & Hch).
      apply M_ret_Ok in Hch as [_ <-].
      simpl. rewrite foldl_app.
      apply Hs in Ht as <-. by apply IHl in Hts.
Qed.


Lemma var_dict_type system typ name v :
  _get_var_dict system typ name = Ok v →
  vd_type v = match typ with input => "param" | output => "unknown" end.
Proof.
  unfold _get_var_dict. intros H.
  apply result_bind_Ok in H as ([m n] & _ & H).
  apply result_bind_Ok in H as (value & _ & [= <-]). done.
Qed.


(** ** Orders *)

Global Instance lex_le_trans {A B} (RA : relation A) (RB : relation B)
  `{!PartialOrder RA, !Transitive RB} : Transitive (lex_le RA RB).
Proof.
  intros [a1 b1] [a2 b2] [a3 b3]. unfold lex_le. simpl.
  intros [[Hn12 H12]|[-> H12]] [[Hn23 H23]|[-> H23]].
  - left. split; [|by etrans]. intros ->. apply Hn12. by apply (anti_symm RA).
  - left. done.
  - left. done.
  - right. split; [done|]. by etrans.
Qed.

Global Instance lex_le_total {A B} `{EqDecision A} (RA : relation A) (RB : relation B)
  `{!Total RA, !Total RB} : Total (lex_le RA RB).
Proof.
  intros [a1 b1] [a2 b2]. unfold lex_le. simpl.
  destruct (decide (a1 = a2)) as [->|Hne].
  - destruct (total RB b1 b2); [left | right]; by right.
  - destruct (total RA a1 a2); [left | right]; left; split; congruence.
Qed.

Global Instance lex_le_antisym {A B} (RA : relation A) (RB : relation B)
  `{!AntiSymm (=) RA, !AntiSymm (=) RB} : AntiSymm (=) (lex_le RA RB).
Proof.
  intros [a1 b1] [a2 b2]. unfold lex_le. simpl.
  intros [[Hn12 H12]|[-> H12]] [[Hn23 H23]|[E H23]]; try congruence.
  - exfalso. apply Hn12. by apply (anti_symm RA).
  - f_equal. by apply (anti_symm RB).
Qed.

Global Instance opt_le_trans : Transitive opt_le.
Proof.
  intros [a|] [b|] [c|]; simpl; try done. intros ??. by etrans.
Qed.

Global Instance opt_le_total : Total opt_le.
Proof.
  intros [a|] [b|]; simpl; auto. apply (total String.le).
Qed.

Global Instance item_le_trans : Transitive item_le.
Proof. unfold item_le. apply _. Qed.
Global Instance item_le_total : Total item_le.
Proof. unfold item_le. apply _. Qed.
Global Instance path_pair_le_trans : Transitive path_pair_le.
Proof. unfold path_pair_le. apply _. Qed.
Global Instance arrow_le_total : Total arrow_le.
Proof. unfold arrow_le. apply _. Qed.
Global Instance arrow_le_trans : Transitive arrow_le.
Proof. unfold arrow_le. apply _. Qed.
Global Instance arrow_le_antisym : AntiSymm (=) arrow_le.
Proof. unfold arrow_le. apply _. Qed.

Lemma sorted_items_Sorted d : Sorted item_le (sorted_items d).
Proof. apply (Sorted_merge_sort item_le). Qed.

Lemma sorted_items_Permutation d : sorted_items d ≡ₚ d.
Proof. apply (merge_sort_Permutation item_le). Qed.

Lemma sort_arrows_Sorted l : Sorted arrow_le (sort_arrows l).
Proof. apply (Sorted_merge_sort arrow_le). Qed.

Lemma sort_arrows_Permutation l : sort_arrows l ≡ₚ l.
Proof. apply (merge_sort_Permutation arrow_le). Qed.

(** Whatever the sorting algorithm, the sorted list of arrows is this one. *)
Lemma sort_arrows_unique l l' :
  Sorted arrow_le l' → l' ≡ₚ l → l' = sort_arrows l.
Proof.
  intros Hs Hp. apply (Sorted_unique arrow_le); [done | apply sort_arrows_Sorted |].
  by rewrite sort_arrows_Permutation.
Qed.

(** The defined connections of a sorted mapping are sorted by
    [(target, source)]. *)
Lemma defined_sources_sorted d :
  Sorted item_le d → Sorted path_pair_le (defined_sources d).
Proof.
  intros Hs. apply Sorted_StronglySorted in Hs; [|apply _].
  apply StronglySorted_Sorted.
  induction Hs as [|[i o] l Hl IH Hall]; simpl; [constructor|].
  destruct o as [o|]; simpl; [|done].
  constructor; [done|].
  clear -Hall. induction Hall as [|[i' o'] l Hx Hall IH]; simpl; [constructor|].
  destruct o' as [o'|]; simpl; [|done].
  constructor; [|done]. exact Hx.
Qed.

(** ** The pathname index *)

Lemma index_wf_empty : index_wf {| sys_pathnames_list := []; sys_pathnames_dict := ∅ |}.
Proof. intros p i. simpl. by rewrite lookup_empty. Qed.

Lemma index_pathname_spec p st :
  index_wf st →
  index_wf (index_pathname p st)
  ∧ sys_pathnames_list st `prefix_of` sys_pathnames_list (index_pathname p st)
  ∧ (∃ i, sys_pathnames_dict (index_pathname p st) !! p = Some i
          ∧ sys_pathnames_list (index_pathname p st) !! i = Some p)
  ∧ (∀ q i, sys_pathnames_dict st !! q = Some i →
            sys_pathnames_dict (index_pathname p st) !! q = Some i).
Proof.
  intros Hwf. unfold index_pathname.
  destruct (sys_pathnames_dict st !! p) as [i|] eqn:E.
  - split_and!; [done | done | eauto | done].
  - assert (∀ l : list string, length (l ++ [p]) - 1 = length l) as Hlen.
    { intros l. rewrite length_app. simpl. lia. }
    simpl. rewrite Hlen. split_and!.
    + intros q i. simpl. destruct (decide (p = q)) as [->|Hne].
      * rewrite lookup_insert_eq. intros [= <-].
        by rewrite lookup_app_r, Nat.sub_diag.
      * rewrite lookup_insert_ne by done. intros Hq.
        apply lookup_app_l_Some. by apply Hwf.
    + by apply prefix_app_r.
    + exists (length (sys_pathnames_list st)). rewrite lookup_insert_eq.
      split; [done|]. by rewrite lookup_app_r, Nat.sub_diag.
    + intros q i Hq. rewrite lookup_insert_ne; [done|]. congruence.
Qed.

Lemma arrow_within_mono scc_list orders names names' s t ar :
  names `prefix_of` names' →
  arrow_within scc_list orders names s t ar →
  arrow_within scc_list orders names' s t ar.
Proof.
  intros Hp (ps & pt & li & o1 & o2 & o3 & o4 & H1 & H2 & H).
  exists ps, pt, li, o1, o2, o3, o4.
  split; [by eapply prefix_lookup_Some|].
  split; [by eapply prefix_lookup_Some|]. done.
Qed.

(** ** One edge, and the edges of a subgraph *)

Lemma register_edge_spec str e acc st acc' st' :
  index_wf st →
  register_edge str e acc st = Ok (acc', st') →
  index_wf st'
  ∧ sys_pathnames_list st `prefix_of` sys_pathnames_list st'
  ∧ (acc' = acc
     ∨ ∃ ar, acc' = acc ++ [ar]
             ∧ sys_pathnames_list st' !! ar.1 = Some e.1
             ∧ sys_pathnames_list st' !! ar.2 = Some e.2).
Proof.
  intros Hwf. unfold register_edge. case_decide as Hne.
  - destruct (index_pathname_spec e.1 st Hwf) as (Hwf1 & Hp1 & (i1 & Hd1 & Hl1) & Hk1).
    destruct (index_pathname_spec e.2 _ Hwf1) as (Hwf2 & Hp2 & (i2 & Hd2 & Hl2) & Hk2).
    apply Hk2 in Hd1. unfold getitem. rewrite Hd1, Hd2. simpl.
    intros [= <- <-]. split_and!; [done | by etrans |].
    right. exists (i1, i2). split_and!; [done | | done].
    simpl. by apply Hwf2.
  - intros [-> ->]%M_ret_Ok. split_and!; [done | done | by left].
Qed.

Lemma edges_loop_spec str edges : ∀ acc st acc' st',
  index_wf st →
  for_each edges (register_edge str) acc st = Ok (acc', st') →
  index_wf st'
  ∧ sys_pathnames_list st `prefix_of` sys_pathnames_list st'
  ∧ ∃ new, acc' = acc ++ new
           ∧ Forall (λ ar, ∃ e, e ∈ edges
                        ∧ sys_pathnames_list st' !! ar.1 = Some e.1
                        ∧ sys_pathnames_list st' !! ar.2 = Some e.2) new.
Proof.
  induction edges as [|e edges IH]; intros acc st acc' st' Hwf H; simpl in H.
  - apply M_ret_Ok in H as [-> ->]. split_and!; [done | done |].
    exists []. by rewrite app_nil_r.
  - apply M_bind_Ok in H as (acc1 & st1 & H1 & H).
    apply register_edge_spec in H1 as (Hwf1 & Hp1 & Hacc1); [|done].
    apply IH in H as (Hwf' & Hp' & new & -> & Hnew); [|done].
    split_and!; [done | by etrans |].
    assert (Forall (λ ar, ∃ e0, e0 ∈ e :: edges
                    ∧ sys_pathnames_list st' !! ar.1 = Some e0.1
                    ∧ sys_pathnames_list st' !! ar.2 = Some e0.2) new) as Hnew'.
    { eapply Forall_impl; [exact Hnew|]. intros ar (e0 & ? & ?).
      exists e0. split; [by right | done]. }
    destruct Hacc1 as [->|(ar & -> & Ha1 & Ha2)].
    + by exists new.
    + exists (ar :: new). split; [by rewrite <- app_assoc|].
      constructor; [|done]. exists e. split; [by left|].
      split; by eapply prefix_lookup_Some.
Qed.

Lemma subgraph_edges_Permutation G nodes :
  subgraph_edges walk G nodes ≡ₚ induced_edges G nodes.
Proof. unfold subgraph_edges. by destruct (walk G nodes). Qed.

Lemma induced_edges_elem G nodes e :
  e ∈ induced_edges G nodes → e.1 ∈ nodes ∧ e.2 ∈ nodes.
Proof.
  unfold induced_edges. intros H.
  apply list_elem_of_bind in H as ([n nbrs] & H & _).
  case_decide as Hn; [|by apply not_elem_of_nil in H].
  apply list_elem_of_fmap in H as (nbr & -> & H).
  apply list_elem_of_filter in H as [H _]. done.
Qed.

Lemma subgraph_edges_elem G nodes e :
  e ∈ subgraph_edges walk G nodes → e.1 ∈ nodes ∧ e.2 ∈ nodes.
Proof.
  rewrite subgraph_edges_Permutation. apply induced_edges_elem.
Qed.

Lemma window_nodes_spec orders li lo hi nodes :
  window_nodes orders li lo hi = Ok nodes →
  ∀ n, n ∈ nodes → n ∈ li ∧ ∃ o, orders !! n = Some o ∧ lo ≤ o ∧ o ≤ hi.
Proof.
  unfold window_nodes. intros H.
  apply result_bind_Ok in H as (ns & Hns & [= <-]).
  apply mapM_Ok_Forall2 in Hns.
  intros n Hn. apply elem_of_list_to_set in Hn.
  apply list_elem_of_fmap in Hn as ([n' o] & -> & Hn). simpl.
  apply list_elem_of_filter in Hn as [[Hlo Hhi] Hn]. simpl in *.
  apply list_elem_of_lookup in Hn as [i Hi].
  destruct (Forall2_lookup_r _ _ _ _ _ Hns Hi) as (m & Hm & Hf).
  apply result_bind_Ok in Hf as (o' & Ho' & [= <- <-]).
  split.
  - apply elem_of_elements. eapply list_elem_of_lookup_2, Hm.
  - exists o'. unfold getitem in Ho'. destruct (orders !! m); by simplify_eq.
Qed.

(** ** The SCC sets of one connection *)

Lemma scan_scc_spec G scc_list orders s t li count edges st count' edges' st' :
  index_wf st → li ∈ scc_list →
  scan_scc walk G orders s t li (count, edges) st = Ok ((count', edges'), st') →
  index_wf st'
  ∧ sys_pathnames_list st `prefix_of` sys_pathnames_list st'
  ∧ count' = count + length (filter (holds_both s t) [li])
  ∧ (count' = count ∨ count' ≤ 1)
  ∧ ∃ new, edges' = edges ++ new
           ∧ Forall (arrow_within scc_list orders (sys_pathnames_list st') s t) new.
Proof.
  intros Hwf Hli. unfold scan_scc.
  rewrite filter_cons, filter_nil.
  case_decide as Hboth; simpl.
  - rewrite (decide_True (P:=holds_both s t li)) by done.
    case_decide as Hcount; [done|].
    intros H.
    apply M_bind_Ok in H as (exe_tgt & st1 & [Htgt ->]%lift_Ok & H).
    apply M_bind_Ok in H as (exe_src & st1 & [Hsrc ->]%lift_Ok & H).
    apply M_bind_Ok in H as (nodes & st1 & [Hnodes ->]%lift_Ok & H).
    apply M_bind_Ok in H as (edges1 & st1 & Hloop & H).
    apply M_ret_Ok in H as [[= <- <-] <-].
    apply edges_loop_spec in Hloop as (Hwf' & Hp & new & -> & Hnew); [|done].
    split_and!; [done | done | simpl; lia | right; lia |].
    exists new. split; [done|].
    eapply Forall_impl; [exact Hnew|]. intros ar (e & He & H1 & H2).
    apply subgraph_edges_elem in He as [He1 He2].
    destruct (window_nodes_spec _ _ _ _ _ Hnodes _ He1) as (Hl1 & o1 & Ho1 & Hlo1 & Hhi1).
    destruct (window_nodes_spec _ _ _ _ _ Hnodes _ He2) as (Hl2 & o2 & Ho2 & Hlo2 & Hhi2).
    unfold getitem in Htgt, Hsrc.
    destruct (orders !! t) as [ot|] eqn:Et; [|done].
    destruct (orders !! s) as [os|] eqn:Es; [|done].
    simplify_eq.
    exists e.1, e.2, li, exe_src, exe_tgt, o1, o2.
    split_and!; try done; lia.
  - rewrite (decide_False (P:=holds_both s t li)) by done.
    intros [[= <- <-] <-]%M_ret_Ok.
    split_and!; [done | done | simpl; lia | by left |].
    exists []. by rewrite app_nil_r.
Qed.

Lemma scc_loop_spec G scc_list orders s t l : ∀ count edges st count' edges' st',
  index_wf st → l ⊆ scc_list → count ≤ 1 →
  for_each l (scan_scc walk G orders s t) (count, edges) st = Ok ((count', edges'), st') →
  index_wf st'
  ∧ sys_pathnames_list st `prefix_of` sys_pathnames_list st'
  ∧ count' = count + length (filter (holds_both s t) l)
  ∧ count' ≤ 1
  ∧ ∃ new, edges' = edges ++ new
           ∧ Forall (arrow_within scc_list orders (sys_pathnames_list st') s t) new.
Proof.
  induction l as [|li l IH]; intros count edges st count' edges' st' Hwf Hsub Hc H;
    simpl in H.
  - apply M_ret_Ok in H as [[= <- <-] <-].
    split_and!; [done | done | simpl; lia | done |].
    exists []. by rewrite app_nil_r.
  - apply M_bind_Ok in H as ([count1 edges1] & st1 & H1 & H).
    apply (scan_scc_spec _ scc_list) in H1 as (Hwf1 & Hp1 & Hc1 & Hc1' & new1 & -> & Hn1);
      [|done|apply Hsub; by left].
    apply IH in H as (Hwf' & Hp' & Hc' & Hle & new2 & -> & Hn2);
      [|done| |lia].
    2:{ intros x Hx. apply Hsub. by right. }
    split_and!; [done | by etrans | | done |].
    + rewrite Hc', Hc1. rewrite (filter_cons _ li l), filter_cons, filter_nil.
      case_decide; simpl; lia.
    + exists (new1 ++ new2). split; [by rewrite app_assoc|].
      apply Forall_app. split; [|done].
      eapply Forall_impl; [exact Hn1|]. intros ar. by apply arrow_within_mono.
Qed.

Lemma for_each_cons {S A B} (x : A) l (body : A → B → M S B) acc st :
  for_each (x :: l) body acc st =
  match body x acc st with
  | Ok (acc', st') => for_each l body acc' st'
  | Raise e => Raise e
  end.
Proof. reflexivity. Qed.

Lemma scan_scc_count G orders s t li count edges st count' edges' st' :
  scan_scc walk G orders s t li (count, edges) st = Ok ((count', edges'), st') →
  count' = count + length (filter (holds_both s t) [li])
  ∧ (count' = count ∨ count' ≤ 1).
Proof.
  unfold scan_scc. rewrite filter_cons, filter_nil.
  case_decide as Hboth; simpl.
  - rewrite (decide_True (P:=holds_both s t li)) by done.
    case_decide as Hcount; [done|]. intros H.
    apply M_bind_Ok in H as (? & ? & _ & H).
    apply M_bind_Ok in H as (? & ? & _ & H).
    apply M_bind_Ok in H as (? & ? & _ & H).
    apply M_bind_Ok in H as (? & ? & _ & H).
    apply M_ret_Ok in H as [[= <- <-] <-]. simpl. lia.
  - rewrite (decide_False (P:=holds_both s t li)) by done.
    intros [[= <- <-] <-]%M_ret_Ok. simpl. lia.
Qed.

(** A second SCC set that holds both owners stops the scan. *)
Lemma scc_loop_raises G orders s t l : ∀ count edges st,
  count ≤ 1 →
  2 ≤ count + length (filter (holds_both s t) l) →
  ∃ e, for_each l (scan_scc walk G orders s t) (count, edges) st = Raise e.
Proof.
  induction l as [|li l IH]; intros count edges st Hle Hc.
  - simpl in Hc. lia.
  - rewrite for_each_cons.
    destruct (scan_scc walk G orders s t li (count, edges) st)
      as [[[count1 edges1] st1]|e] eqn:E; [|eauto].
    apply scan_scc_count in E as [E1 E2].
    rewrite filter_cons in Hc. rewrite filter_cons, filter_nil in E1.
    apply IH; [lia|]. destruct (decide (holds_both s t li)); simpl in *; lia.
Qed.

(** ** One connection, and all of them *)

Lemma cycle_edges_spec G scc_list orders out_abs in_abs st edges st' :
  index_wf st →
  cycle_edges walk G scc_list orders out_abs in_abs st = Ok (edges, st') →
  index_wf st'
  ∧ sys_pathnames_list st `prefix_of` sys_pathnames_list st'
  ∧ Forall (arrow_within scc_list orders (sys_pathnames_list st')
              (rsplit_dot_0 out_abs) (rsplit_dot_0 in_abs)) edges.
Proof.
  intros Hwf H. unfold cycle_edges in H.
  apply M_bind_Ok in H as ([count' edges'] & st1 & H & [<- <-]%M_ret_Ok).
  apply (scc_loop_spec _ scc_list) in H as (Hwf' & Hp & _ & _ & new & -> & Hnew);
    [done | done | done | lia].
Qed.

Lemma cycle_edges_raises G scc_list orders out_abs in_abs st :
  2 ≤ length (filter (holds_both (rsplit_dot_0 out_abs) (rsplit_dot_0 in_abs)) scc_list) →
  ∃ e, cycle_edges walk G scc_list orders out_abs in_abs st = Raise e.
Proof.
  intros H. unfold cycle_edges.
  destruct (scc_loop_raises G orders (rsplit_dot_0 out_abs) (rsplit_dot_0 in_abs)
              scc_list 0 [] st) as [e He]; [lia | simpl; lia |].
  exists e. unfold mbind, M_bind. by rewrite He.
Qed.

Lemma emitted_mono G scc_list orders names names' decl c :
  names `prefix_of` names' →
  emitted walk G scc_list orders names decl c → emitted walk G scc_list orders names' decl c.
Proof.
  intros Hp (edges & st & st' & Hrun & -> & H).
  exists edges, st, st'. split_and!; [done | done |].
  eapply Forall_impl; [exact H|]. intros ar. by apply arrow_within_mono.
Qed.

Lemma connections_loop_spec G scc_list orders items : ∀ cl0 st0 cl ix,
  index_wf st0 →
  for_each items (connect walk G scc_list orders) cl0 st0 = Ok (cl, ix) →
  index_wf ix
  ∧ sys_pathnames_list st0 `prefix_of` sys_pathnames_list ix
  ∧ ∃ new, cl = cl0 ++ new
           ∧ Forall2 (emitted walk G scc_list orders (sys_pathnames_list ix))
               (defined_sources items) new.
Proof.
  induction items as [|[in_abs out] items IH]; intros cl0 st0 cl ix Hwf H.
  - apply M_ret_Ok in H as [<- <-]. split_and!; [done | done |].
    exists []. rewrite app_nil_r. split; [done | constructor].
  - rewrite for_each_cons in H.
    destruct (connect walk G scc_list orders (in_abs, out) cl0 st0) as [[cl1 st1]|e] eqn:E;
      [|done].
    unfold connect in E. simpl in E. destruct out as [out_abs|].
    + apply M_bind_Ok in E as (edges & st2 & Hedges & [<- <-]%M_ret_Ok).
      pose proof Hedges as Hrun.
      apply cycle_edges_spec in Hedges as (Hwf1 & Hp1 & Hall); [|done].
      apply IH in H as (Hwf' & Hp' & new & -> & Hnew); [|done].
      split_and!; [done | by etrans |].
      exists (emit_connection out_abs in_abs edges :: new).
      split; [by rewrite <- app_assoc|].
      simpl. constructor; [|done].
      eapply emitted_mono; [exact Hp'|]. by exists edges, st0, st2.
    + apply M_ret_Ok in E as [<- <-].
      apply IH in H as (Hwf' & Hp' & new & -> & Hnew); [|done].
      split_and!; [done | done |]. by exists new.
Qed.

Lemma extract_connections_spec G scc_list orders items cl ix :
  extract_connections walk G scc_list orders items = Ok (cl, ix) →
  index_wf ix
  ∧ Forall2 (emitted walk G scc_list orders (sys_pathnames_list ix))
      (defined_sources items) cl.
Proof.
  intros H. apply connections_loop_spec in H as (Hwf & _ & new & -> & Hnew);
    [done | apply index_wf_empty].
Qed.

Lemma emit_connection_src_tgt out_abs in_abs edges :
  src (emit_connection out_abs in_abs edges) = out_abs
  ∧ tgt (emit_connection out_abs in_abs edges) = in_abs.
Proof. by destruct edges. Qed.

(** The entries are the declared connections, one for one and in order. *)
Lemma extract_connections_entries G scc_list orders items cl ix :
  extract_connections walk G scc_list orders items = Ok (cl, ix) →
  (λ c, (tgt c, src c)) <$> cl = defined_sources items.
Proof.
  intros H. apply extract_connections_spec in H as [_ H].
  generalize dependent (defined_sources items). clear items.
  intros decls H.
  induction H as [|[i o] c decls cl' (edges & ? & ? & _ & -> & _) _ IH]; [done|].
  rewrite fmap_cons, IH. by destruct edges.
Qed.

Lemma connections_loop_raises G scc_list orders items in_abs out_abs :
  (in_abs, Some out_abs) ∈ items →
  2 ≤ length (filter (holds_both (rsplit_dot_0 out_abs) (rsplit_dot_0 in_abs)) scc_list) →
  ∀ cl0 st0, ∃ e, for_each items (connect walk G scc_list orders) cl0 st0 = Raise e.
Proof.
  intros Hin Htwo. induction items as [|item items IH]; intros cl0 st0.
  - by apply not_elem_of_nil in Hin.
  - rewrite for_each_cons.
    destruct (connect walk G scc_list orders item cl0 st0) as [[cl1 st1]|e] eqn:E; [|eauto].
    apply elem_of_cons in Hin as [<-|Hin]; [|by apply IH].
    exfalso. unfold connect in E. simpl in E.
    destruct (cycle_edges_raises G scc_list orders out_abs in_abs st0 Htwo) as [e He].
    unfold mbind, M_bind in E. by rewrite He in E.
Qed.

Lemma two_positions_filter {A} (P : A → Prop) `{∀ x, Decision (P x)} (l : list A) i j x y :
  i ≠ j → l !! i = Some x → l !! j = Some y → P x → P y →
  2 ≤ length (filter P l).
Proof.
  revert i j. induction l as [|z l IH]; intros i j Hij Hi Hj Hx Hy; [done|].
  rewrite filter_cons. destruct i as [|i], j as [|j]; simplify_eq/=.
  - rewrite decide_True by done. simpl.
    assert (y ∈ filter P l) as Hin.
    { apply list_elem_of_filter. split; [done|]. eapply list_elem_of_lookup_2, Hj. }
    destruct (filter P l); [by apply not_elem_of_nil in Hin | simpl; lia].
  - rewrite decide_True by done. simpl.
    assert (x ∈ filter P l) as Hin.
    { apply list_elem_of_filter. split; [done|]. eapply list_elem_of_lookup_2, Hi. }
    destruct (filter P l); [by apply not_elem_of_nil in Hin | simpl; lia].
  - assert (2 ≤ length (filter P l)) by (eapply (IH i j); eauto).
    case_decide; simpl; lia.
Qed.

(** ** The snapshot of a live model *)

Lemma build_Ok root drv root' snap :
  is_Group root = true →
  build root drv = (root', Ok snap) →
  root' = sorted_root root
  ∧ ∃ tree idx cl ix,
      get_tree_dict root false (∅, 0) = Ok (tree, (orders_of root, idx))
      ∧ extract_connections walk (compute_sys_graph root') (scc_of root)
          (orders_of root) (conn_global_abs_in2out root') = Ok (cl, ix)
      ∧ snap = [("tree", VTree tree);
                ("sys_pathnames_list", VNames (sys_pathnames_list ix));
                ("connections_list", VConnections cl);
                ("abs2prom", VAbs2prom (_var_abs2prom (attrs root')));
                ("driver", VDriver drv);
                ("design_vars", VVars (get_design_vars root'));
                ("responses", VVars (get_responses root'));
                ("declare_partials_list", VNames (_get_declare_partials root'))].
Proof.
  intros Hg. unfold build_data_dict, exec_orders_of, scc_list_of.
  destruct (get_tree_dict root false (∅, 0)) as [[tree [orders idx]]|e] eqn:Et;
    [|intros [= _ ?]; done].
  intros [= <- H]. split; [done|].
  apply result_bind_Ok in H as ([cl ix] & Hx & [= <-]).
  exists tree, idx, cl, ix. split; [done|].
  destruct root as [|a pg conn subs]; [done|]. simpl in *. done.
Qed.

Lemma build_fst root drv :
  (build root drv).1 = root ∨ (build root drv).1 = sorted_root root.
Proof.
  unfold build_data_dict.
  destruct (get_tree_dict root false (∅, 0)) as [[tree [orders idx]]|e]; simpl; auto.
Qed.

Lemma get_viewer_data_live ds root :
  root_group_of ds = Some root →
  is_Group root = true
  ∧ returned (get_viewer_data ds) = (build root (driver_of ds)).2
  ∧ warnings (get_viewer_data ds) = []
  ∧ source_after (get_viewer_data ds)
    = with_connections ds (conn_global_abs_in2out (build root (driver_of ds)).1).
Proof.
  destruct ds as [p|s|f|]; simpl; try done.
  - destruct p as [m d]. simpl. destruct (is_Group m) eqn:Hg; [|done].
    intros [= <-]. split; [done|].
    destruct (build m (driver_dict_of d)) as [root' r] eqn:Eb. simpl.
    split_and!; try done.
    pose proof (build_fst m (driver_dict_of d)) as Hf. rewrite Eb in Hf. simpl in Hf.
    destruct m as [|a pg conn subs]; [done|].
    destruct Hf as [->| ->]; done.
  - destruct s as [|a pg conn subs]; [done|].
    case_decide; [|done]. intros [= <-]. split; [done|].
    destruct (build (Group a pg conn subs) no_driver) as [root' r] eqn:Eb. simpl.
    split_and!; try done.
    pose proof (build_fst (Group a pg conn subs) no_driver) as Hf.
    rewrite Eb in Hf. simpl in Hf.
    destruct Hf as [->| ->]; done.
Qed.

(** Without a root group, a data source that is not a recorded file gives
    the empty dict or a type error, and stays as it is. *)
Lemma get_viewer_data_not_live ds :
  root_group_of ds = None → is_filename ds = false →
  source_after (get_viewer_data ds) = ds
  ∧ (returned (get_viewer_data ds) = Ok []
     ∨ returned (get_viewer_data ds) = Raise TypeError).
Proof.
  destruct ds as [p|s|f|]; simpl.
  - destruct (is_Group (model p)); [done|]. auto.
  - destruct s as [|a pg conn subs]; [auto|]. case_decide; [done|]. auto.
  - done.
  - auto.
Qed.

(** A snapshot with connections came out of the extractor. *)
Lemma live_snapshot_inv ds snap :
  is_filename ds = false →
  returned (get_viewer_data ds) = Ok snap →
  snap = []
  ∨ ∃ root tree idx cl ix,
      root_group_of ds = Some root
      ∧ is_Group root = true
      ∧ get_tree_dict root false (∅, 0) = Ok (tree, (orders_of root, idx))
      ∧ extract_connections walk (compute_sys_graph (sorted_root root)) (scc_of root)
          (orders_of root) (sorted_items (connections_of ds)) = Ok (cl, ix)
      ∧ snap = [("tree", VTree tree);
                ("sys_pathnames_list", VNames (sys_pathnames_list ix));
                ("connections_list", VConnections cl);
                ("abs2prom", VAbs2prom (_var_abs2prom (attrs root)));
                ("driver", VDriver (driver_of ds));
                ("design_vars", VVars (get_design_vars (sorted_root root)));
                ("responses", VVars (get_responses (sorted_root root)));
                ("declare_partials_list", VNames (_get_declare_partials root))].
Proof.
  intros Hlive Hret.
  destruct (root_group_of ds) as [root|] eqn:Er.
  - destruct (get_viewer_data_live ds root Er) as (Hg & Hr & _ & _).
    rewrite Hr in Hret.
    destruct (build root (driver_of ds)) as [root' r] eqn:Eb. simpl in Hret. subst r.
    apply build_Ok in Eb as (-> & tree & idx & cl & ix & Ht & Hx & ->); [|done].
    right. exists root, tree, idx, cl, ix.
    assert (connections_of ds = conn_global_abs_in2out root) as Hc.
    { destruct ds as [p|s|f|]; simpl in *; try done.
      - destruct (is_Group (model p)); by simplify_eq.
      - destruct s; [done|]. case_decide; by simplify_eq. }
    rewrite Hc. destruct root as [|a pg conn subs]; [done|].
    split_and!; done.
  - destruct (get_viewer_data_not_live ds Er Hlive) as [_ [H|H]];
      rewrite H in Hret; simplify_eq. by left.
Qed.

(** ** The connection list *)

Lemma snapshot_connections ds snap cl :
  is_filename ds = false →
  returned (get_viewer_data ds) = Ok snap →
  odict_get snap "connections_list" = Some (VConnections cl) →
  ∃ root ix,
    root_group_of ds = Some root
    ∧ extract_connections walk (compute_sys_graph (sorted_root root)) (scc_of root)
        (orders_of root) (sorted_items (connections_of ds)) = Ok (cl, ix)
    ∧ odict_get snap "sys_pathnames_list" = Some (VNames (sys_pathnames_list ix)).
Proof.
  intros Hlive Hret Hcl.
  destruct (live_snapshot_inv ds snap Hlive Hret)
    as [->|(root & tree & idx & cl' & ix & Hr & _ & _ & Hx & ->)]; [done|].
  exists root, ix. by simplify_eq/=.
Qed.

Lemma elem_of_defined_sources d i o :
  (i, o) ∈ defined_sources d ↔ (i, Some o) ∈ d.
Proof.
  unfold defined_sources. rewrite list_elem_of_omap. split.
  - intros ([i' [o'|]] & Hin & Heq); simplify_eq/=. done.
  - intros Hin. exists (i, Some o). done.
Qed.

Lemma defined_sources_keys_sublist d : (defined_sources d).*1 `sublist_of` keys d.
Proof.
  induction d as [|[i [o|]] d IH]; simpl.
  - constructor.
  - by apply sublist_skip.
  - by apply sublist_cons.
Qed.

Lemma odict_get_elem_of {V} (d : odict V) k v :
  NoDup (keys d) → (k, v) ∈ d ↔ odict_get d k = Some v.
Proof.
  induction d as [|[k' v'] d IH]; simpl; intros Hnd.
  - split; [by intros ?%not_elem_of_nil | done].
  - apply NoDup_cons in Hnd as [Hk' Hnd]. rewrite elem_of_cons.
    case_decide as Hk; subst.
    + split; [|intros [= ->]; by left].
      intros [[= ->]|Hin]; [done|]. exfalso. apply Hk'.
      apply list_elem_of_fmap. by exists (k, v).
    + rewrite <- IH by done. split; [|by right].
      by intros [[= -> ->]|Hin].
Qed.

Lemma Sorted_consecutive {A} (R : relation A) (l : list A) i a b :
  Sorted R l → l !! i = Some a → l !! S i = Some b → R a b.
Proof.
  intros Hs. revert i. induction Hs as [|x l Hl IH Hhd]; intros i Hi Hi'; [done|].
  destruct i as [|i]; simpl in *.
  - injection Hi as ->. destruct Hhd; by simplify_eq/=.
  - by eapply IH.
Qed.

(** C1 (amended): the connection list is in sorted order of its
    (target-path, source-path) pairs: of two consecutive entries, the
    (tgt, src) pair of the earlier is lexicographically less than or equal
    to that of the later. *)
Theorem connections_sorted_by_target ds snap cl :
  is_filename ds = false →
  returned (get_viewer_data ds) = Ok snap →
  odict_get snap "connections_list" = Some (VConnections cl) →
  Sorted path_pair_le ((λ c, (tgt c, src c)) <$> cl)
  ∧ ∀ i c c', cl !! i = Some c → cl !! S i = Some c' →
      path_pair_le (tgt c, src c) (tgt c', src c').
Proof.
  intros Hlive Hret Hcl.
  destruct (snapshot_connections ds snap cl Hlive Hret Hcl) as (root & ix & _ & Hx & _).
  apply extract_connections_entries in Hx.
  assert (Sorted path_pair_le ((λ c, (tgt c, src c)) <$> cl)) as Hs.
  { rewrite Hx. apply defined_sources_sorted, sorted_items_Sorted. }
  split; [done|].
  intros i c c' Hi Hi'.
  eapply (Sorted_consecutive _ _ i); [exact Hs | |].
  - by rewrite list_lookup_fmap, Hi.
  - by rewrite list_lookup_fmap, Hi'.
Qed.

(** C8: a target input whose source is undefined has no entry in
    [connections_list], and a target input with a defined source has
    exactly one, which carries that source. *)
Theorem undefined_sources_omitted ds snap cl :
  is_filename ds = false →
  NoDup (keys (connections_of ds)) →
  returned (get_viewer_data ds) = Ok snap →
  odict_get snap "connections_list" = Some (VConnections cl) →
  ∀ in_abs,
    (∀ out_abs, odict_get (connections_of ds) in_abs = Some (Some out_abs) →
       ∃ i c, cl !! i = Some c ∧ tgt c = in_abs ∧ src c = out_abs
              ∧ ∀ j c', cl !! j = Some c' → tgt c' = in_abs → j = i)
    ∧ ((¬ ∃ out_abs, odict_get (connections_of ds) in_abs = Some (Some out_abs)) →
       ∀ c, c ∈ cl → tgt c ≠ in_abs).
Proof.
  intros Hlive Hnd Hret Hcl in_abs.
  destruct (snapshot_connections ds snap cl Hlive Hret Hcl) as (root & ix & _ & Hx & _).
  apply extract_connections_entries in Hx.
  set (d := connections_of ds) in *.
  assert (∀ i o, (i, o) ∈ (λ c, (tgt c, src c)) <$> cl ↔ odict_get d i = Some (Some o))
    as Hmem.
  { intros i o. rewrite Hx, elem_of_defined_sources.
    rewrite (sorted_items_Permutation d). by apply odict_get_elem_of. }
  assert (NoDup (tgt <$> cl)) as Htgts.
  { assert (tgt <$> cl = ((λ c, (tgt c, src c)) <$> cl).*1) as ->.
    { by rewrite <- list_fmap_compose. }
    rewrite Hx. eapply sublist_NoDup; [|apply defined_sources_keys_sublist].
    unfold keys. by rewrite (sorted_items_Permutation d). }
  split.
  - intros out_abs Hget. apply Hmem in Hget.
    apply list_elem_of_fmap in Hget as (c & [= Ht Hs] & Hc).
    apply list_elem_of_lookup in Hc as [i Hi].
    exists i, c. split_and!; [done | done | done |].
    intros j c' Hj Ht'.
    eapply NoDup_lookup; [exact Htgts | |].
    + by rewrite list_lookup_fmap, Hj; simpl; rewrite Ht'.
    + by rewrite list_lookup_fmap, Hi; simpl; rewrite <- Ht.
  - intros Hnone c Hc Ht. apply Hnone. exists (src c).
    apply Hmem. apply list_elem_of_fmap. exists c. by rewrite Ht.
Qed.

(** C5: both endpoints of every cycle arrow emitted with a connection,
    read back through [sys_pathnames_list], belong to an SCC set that holds
    both owners of the connection, and their execution orders lie in the
    closed interval between the execution orders of the two owners. *)
Theorem cycle_arrows_within_window ds snap cl names i c arrows k arrow :
  is_filename ds = false →
  returned (get_viewer_data ds) = Ok snap →
  odict_get snap "connections_list" = Some (VConnections cl) →
  odict_get snap "sys_pathnames_list" = Some (VNames names) →
  cl !! i = Some c → cycle_arrows c = Some arrows → arrows !! k = Some arrow →
  ∃ root,
    root_group_of ds = Some root
    ∧ arrow_within (scc_of root) (orders_of root) names
        (rsplit_dot_0 (src c)) (rsplit_dot_0 (tgt c)) arrow.
Proof.
  intros Hlive Hret Hcl Hnames Hi Harrows Harrow.
  apply list_elem_of_lookup_2 in Harrow.
  destruct (snapshot_connections ds snap cl Hlive Hret Hcl) as (root & ix & Hr & Hx & Hn).
  rewrite Hn in Hnames. injection Hnames as <-.
  exists root. split; [done|].
  apply extract_connections_spec in Hx as [_ Hx].
  destruct (Forall2_lookup_r _ _ _ _ _ Hx Hi) as ([in_abs out_abs] & _ & edges & ? & ? & _ & -> & Hall).
  simpl in *. destruct (emit_connection_src_tgt out_abs in_abs edges) as [-> ->].
  destruct edges as [|e edges]; simpl in Harrows; [done|].
  injection Harrows as <-.
  rewrite sort_arrows_Permutation in Harrow.
  by eapply (proj1 (Forall_forall _ _) Hall).
Qed.

(** C6: an emitted connection for which at least one cycle arrow was
    registered carries [cycle_arrows], the registered arrows sorted
    ascending; one for which none was registered has no [cycle_arrows]
    key (it is never there and empty). *)
Theorem cycle_arrows_present_iff_registered ds snap cl i c :
  is_filename ds = false →
  returned (get_viewer_data ds) = Ok snap →
  odict_get snap "connections_list" = Some (VConnections cl) →
  cl !! i = Some c →
  ∃ root edges_list st st',
    root_group_of ds = Some root
    ∧ cycle_edges walk (compute_sys_graph (sorted_root root)) (scc_of root)
        (orders_of root) (src c) (tgt c) st = Ok (edges_list, st')
    ∧ (edges_list = [] → cycle_arrows c = None)
    ∧ (edges_list ≠ [] →
       ∃ arrows, cycle_arrows c = Some arrows ∧ arrows ≠ []
                 ∧ Sorted arrow_le arrows ∧ arrows ≡ₚ edges_list)
    ∧ cycle_arrows c ≠ Some [].
Proof.
  intros Hlive Hret Hcl Hi.
  destruct (snapshot_connections ds snap cl Hlive Hret Hcl) as (root & ix & Hr & Hx & _).
  apply extract_connections_spec in Hx as [_ Hx].
  destruct (Forall2_lookup_r _ _ _ _ _ Hx Hi)
    as ([in_abs out_abs] & _ & edges & st & st' & Hrun & -> & _).
  simpl in *. destruct (emit_connection_src_tgt out_abs in_abs edges) as [-> ->].
  exists root, edges, st, st'. split_and!; [done | done | | |].
  - by intros ->.
  - intros Hne. destruct edges as [|e edges]; [done|]. simpl.
    exists (sort_arrows (e :: edges)).
    split_and!; [done | | apply sort_arrows_Sorted | apply sort_arrows_Permutation].
    intros Hnil. pose proof (sort_arrows_Permutation (e :: edges)) as Hp.
    rewrite Hnil in Hp. by apply Permutation_nil_cons in Hp.
  - destruct edges as [|e edges]; [done|]. simpl. intros [= Hnil].
    pose proof (sort_arrows_Permutation (e :: edges)) as Hp.
    rewrite Hnil in Hp. by apply Permutation_nil_cons in Hp.
Qed.

Lemma extract_connections_raises G scc_list orders items k in_abs out_abs i j li lj :
  items !! k = Some (in_abs, Some out_abs) →
  i ≠ j → scc_list !! i = Some li → scc_list !! j = Some lj →
  holds_both (rsplit_dot_0 out_abs) (rsplit_dot_0 in_abs) li →
  holds_both (rsplit_dot_0 out_abs) (rsplit_dot_0 in_abs) lj →
  ∃ e, extract_connections walk G scc_list orders items = Raise e.
Proof.
  intros Hk Hij Hi Hj Hli Hlj. unfold extract_connections.
  eapply connections_loop_raises.
  - eapply list_elem_of_lookup_2, Hk.
  - by eapply (two_positions_filter _ _ i j).
Qed.

(** C4: when two SCC sets both hold the two owning subsystems of a
    connection, the connection extractor raises, and so does the snapshot
    build: no connection list is returned. *)
Theorem two_scc_sets_fail_fast ds root k in_abs out_abs i j li lj :
  root_group_of ds = Some root →
  connections_of ds !! k = Some (in_abs, Some out_abs) →
  i ≠ j → scc_of root !! i = Some li → scc_of root !! j = Some lj →
  holds_both (rsplit_dot_0 out_abs) (rsplit_dot_0 in_abs) li →
  holds_both (rsplit_dot_0 out_abs) (rsplit_dot_0 in_abs) lj →
  (∀ orders, ∃ e,
     extract_connections walk (compute_sys_graph (sorted_root root)) (scc_of root) orders
       (sorted_items (connections_of ds)) = Raise e)
  ∧ ∃ e, returned (get_viewer_data ds) = Raise e.
Proof.
  intros Hr Hk Hij Hi Hj Hli Hlj.
  assert (∀ orders, ∃ e,
     extract_connections walk (compute_sys_graph (sorted_root root)) (scc_of root) orders
       (sorted_items (connections_of ds)) = Raise e) as Hx.
  { intros orders.
    assert ((in_abs, Some out_abs) ∈ sorted_items (connections_of ds)) as Hin.
    { rewrite sorted_items_Permutation. eapply list_elem_of_lookup_2, Hk. }
    apply list_elem_of_lookup in Hin as [k' Hk'].
    by eapply extract_connections_raises. }
  split; [done|].
  destruct (returned (get_viewer_data ds)) as [snap|e] eqn:Hret; [|eauto].
  exfalso.
  assert (is_filename ds = false) as Hlive by (by destruct ds).
  destruct (live_snapshot_inv ds snap Hlive Hret)
    as [->|(root' & tree & idx & cl & ix & Hr' & _ & _ & Hx' & _)].
  - destruct (get_viewer_data_live ds root Hr) as (Hg & Hb & _).
    rewrite Hb in Hret. unfold build_data_dict in Hret.
    destruct (get_tree_dict root false (∅, 0)) as [[tree [orders idx]]|e]; [|done].
    simpl in Hret. apply result_bind_Ok in Hret as ([cl ix] & _ & [=]).
  - rewrite Hr in Hr'. injection Hr' as <-.
    destruct (Hx (orders_of root)) as [e He]. by rewrite He in Hx'.
Qed.

(** ** The model after the call *)

Lemma with_connections_same ds : with_connections ds (connections_of ds) = ds.
Proof.
  destruct ds as [[m d]|s|f|]; simpl; try done.
  - by destruct m.
  - by destruct s.
Qed.

Lemma build_fst_Ok root drv :
  is_Group root = true →
  (build root drv).1
  = match get_tree_dict root false (∅, 0) with
    | Ok _ => sorted_root root
    | Raise _ => root
    end.
Proof.
  intros _. unfold build_data_dict.
  by destruct (get_tree_dict root false (∅, 0)) as [[tree [orders idx]]|e].
Qed.

Lemma connections_of_root ds root :
  root_group_of ds = Some root → connections_of ds = conn_global_abs_in2out root.
Proof.
  destruct ds as [[m drv]|s|f|]; simpl in *; try done.
  - destruct (is_Group m); by intros [= <-].
  - destruct s; [done|]. case_decide; by intros [= <-].
Qed.

(** C2 (amended): the snapshot build changes no field of the model other
    than the connection mapping of the root group.  When the input has a
    root group and the tree of it is built, the build replaces the mapping
    by one with the same entries in sorted order, also when the connection
    loop raises afterwards.  In every other case (a model that is no
    group, a group that is not the root, the name of a recorded file, an
    input of another type, an error while the tree is built) the mapping
    is left as it was, and so is the whole input. *)
Theorem only_connection_mapping_replaced ds :
  ∃ d,
    source_after (get_viewer_data ds) = with_connections ds d
    ∧ d ≡ₚ connections_of ds
    ∧ (d = connections_of ds ∨ d = sorted_items (connections_of ds))
    ∧ (∀ snap, is_filename ds = false →
         returned (get_viewer_data ds) = Ok snap → snap ≠ [] →
         d = sorted_items (connections_of ds) ∧ Sorted item_le d)
    ∧ match root_group_of ds with
      | Some root =>
          match get_tree_dict root false (∅, 0) with
          | Ok _ => d = sorted_items (connections_of ds) ∧ Sorted item_le d
          | Raise _ =>
              d = connections_of ds ∧ source_after (get_viewer_data ds) = ds
          end
      | None => d = connections_of ds ∧ source_after (get_viewer_data ds) = ds
      end.
Proof.
  destruct (root_group_of ds) as [root|] eqn:Er.
  - destruct (get_viewer_data_live ds root Er) as (Hg & Hret & _ & Hsrc).
    pose proof (connections_of_root ds root Er) as Hc.
    exists (conn_global_abs_in2out (build root (driver_of ds)).1).
    split; [done|]. rewrite Hc.
    assert (conn_global_abs_in2out (sorted_root root)
            = sorted_items (conn_global_abs_in2out root)) as Hs.
    { by destruct root. }
    destruct (build root (driver_of ds)) as [root' r] eqn:Eb. simpl in *.
    split_and!.
    + pose proof (build_fst root (driver_of ds)) as Hf. rewrite Eb in Hf. simpl in Hf.
      destruct Hf as [->| ->]; [done|]. rewrite Hs. apply sorted_items_Permutation.
    + pose proof (build_fst root (driver_of ds)) as Hf. rewrite Eb in Hf. simpl in Hf.
      destruct Hf as [->| ->]; [by left|]. right. done.
    + intros snap _ Hsnap _. rewrite Hret in Hsnap. rewrite Hsnap in Eb.
      apply build_Ok in Eb as [-> _]; [|done]. rewrite Hs.
      split; [done | apply sorted_items_Sorted].
    + pose proof (build_fst_Ok root (driver_of ds) Hg) as Hf.
      rewrite Eb in Hf. simpl in Hf.
      destruct (get_tree_dict root false (∅, 0)) as [[tree st]|e]; subst root'.
      * rewrite Hs. split; [done | apply sorted_items_Sorted].
      * split; [done|]. rewrite Hsrc, <- Hc. apply with_connections_same.
  - exists (connections_of ds). rewrite with_connections_same.
    destruct (is_filename ds) eqn:Hf.
    + destruct ds; try done. simpl. split_and!; [done | done | by left | done | done | done].
    + destruct (get_viewer_data_not_live ds Er Hf) as [Hsrc Hret].
      split_and!; [done | done | by left | | done | done].
      intros snap _ Hsnap Hne. destruct Hret as [H|H]; rewrite H in Hsnap; by simplify_eq.
Qed.

(** C3 (amended): a live root composite (its pathname is empty) given as
    input is normalized into the shape of a live model object: when the
    build returns, the snapshot has the full set of top-level keys, its
    driver entry holds nulls, and every other entry is the one the model
    object holding that composite gets. *)
Theorem root_group_snapshot_shape a pg conn subs drv snap :
  sys_pathname a = EmptyString →
  returned (get_viewer_data (OfSystem (Group a pg conn subs))) = Ok snap →
  keys snap = top_level_keys
  ∧ odict_get snap "driver" = Some (VDriver no_driver)
  ∧ ∃ snap',
      returned (get_viewer_data
                  (OfProblem {| model := Group a pg conn subs; driver := drv |}))
      = Ok snap'
      ∧ keys snap' = top_level_keys
      ∧ ∀ k, k ≠ "driver" → odict_get snap k = odict_get snap' k.
Proof.
  intros Hroot Hret.
  set (g := Group a pg conn subs) in *.
  assert (root_group_of (OfSystem g) = Some g) as Hr1.
  { simpl. by rewrite decide_True. }
  assert (root_group_of (OfProblem {| model := g; driver := drv |}) = Some g) as Hr2
    by done.
  destruct (get_viewer_data_live _ _ Hr1) as (_ & Hb1 & _).
  destruct (get_viewer_data_live _ _ Hr2) as (_ & Hb2 & _).
  rewrite Hb2. rewrite Hb1 in Hret. clear Hb1 Hb2 Hr1 Hr2. simpl in *.
  unfold build_data_dict in *.
  destruct (get_tree_dict g false (∅, 0)) as [[tree [orders idx]]|e]; [|done].
  simpl in *.
  apply result_bind_Ok in Hret as ([cl ix] & Hx & [= <-]).
  rewrite Hx. simpl. split_and!; [done | done |].
  eexists. split_and!; [done | done |].
  intros k Hk. simpl.
  repeat (case_decide; [done|]). done.
Qed.


(** ** The tree *)


(** C10: the children of a leaf component are the declared inputs, then
    the discrete inputs, then the declared outputs, then the discrete
    outputs, each in the order of its table. *)
Theorem leaf_children_order a cls subjacs is_parallel st tree st' :
  get_tree_dict (Component a cls subjacs) is_parallel st = Ok (tree, st') →
  let system := Component a cls subjacs in
  ∃ cont_in disc_in cont_out disc_out,
    children_of tree = VarNode <$> (cont_in ++ disc_in ++ cont_out ++ disc_out)
    ∧ Forall2 (λ n v, _get_var_dict system input n = Ok v)
        (_var_abs_names a input) cont_in
    ∧ Forall2 (λ n v, _get_var_dict system input n = Ok v)
        (keys (_var_discrete a input)) disc_in
    ∧ Forall2 (λ n v, _get_var_dict system output n = Ok v)
        (_var_abs_names a output) cont_out
    ∧ Forall2 (λ n v, _get_var_dict system output n = Ok v)
        (keys (_var_discrete a output)) disc_out
    ∧ Forall (λ v, vd_type v = "param") (cont_in ++ disc_in)
    ∧ Forall (λ v, vd_type v = "unknown") (cont_out ++ disc_out).
Proof.
  intros H system. destruct st as [orders idx]. simpl in H.
  apply result_bind_Ok in H as (ins & Hins & H).
  apply result_bind_Ok in H as (outs & Houts & [= <- _]).
  unfold var_children in Hins, Houts.
  apply result_bind_Ok in Hins as (ci & Hci & Hins).
  apply result_bind_Ok in Hins as (di & Hdi & [= <-]).
  apply result_bind_Ok in Houts as (co & Hco & Houts).
  apply result_bind_Ok in Houts as (dout & Hdo & [= <-]).
  apply mapM_Ok_Forall2 in Hci, Hdi, Hco, Hdo.
  exists ci, di, co, dout. simpl.
  split_and!; try done.
  - by rewrite !fmap_app, !app_assoc.
  - apply Forall_app; split.
    + eapply Forall2_Forall_r; [exact Hci|]. apply Forall_true. intros n v Hv.
      by apply var_dict_type in Hv.
    + eapply Forall2_Forall_r; [exact Hdi|]. apply Forall_true. intros n v Hv.
      by apply var_dict_type in Hv.
  - apply Forall_app; split.
    + eapply Forall2_Forall_r; [exact Hco|]. apply Forall_true. intros n v Hv.
      by apply var_dict_type in Hv.
    + eapply Forall2_Forall_r; [exact Hdo|]. apply Forall_true. intros n v Hv.
      by apply var_dict_type in Hv.
Qed.

End Properties.

(** * The properties at the example models *)

Lemma connections_sorted_by_source_counterexample :
  returned (ex_run (OfSystem ex_feedback)) = Ok ex_snap
  ∧ odict_get ex_snap "connections_list" = Some (VConnections ex_connections)
  ∧ ∃ c c', ex_connections !! 0 = Some c ∧ ex_connections !! 1 = Some c'
            ∧ ¬ path_pair_le (src c, tgt c) (src c', tgt c').
Proof.
  split; [vm_compute; reflexivity|]. split; [vm_compute; reflexivity|].
  eexists _, _. split; [reflexivity|]. split; [reflexivity|].
  simpl. compute_done.
Qed.

Lemma connections_sorted_by_target_witness :
  Sorted path_pair_le ((λ c, (tgt c, src c)) <$> ex_connections)
  ∧ ∀ i c c', ex_connections !! i = Some c → ex_connections !! S i = Some c' →
      path_pair_le (tgt c, src c) (tgt c', src c').
Proof.
  apply (connections_sorted_by_target ex_allgather ex_graph ex_scc adjacency_walk ex_vars ex_vars
           ex_metadata (OfSystem ex_feedback) ex_snap ex_connections);
    vm_compute; reflexivity.
Defined.

Lemma model_unchanged_counterexample :
  connections_of (OfSystem ex_feedback)
  = [("B.x", Some "A.y"); ("A.x", Some "B.y"); ("A.u", None)]
  ∧ connections_of (source_after (ex_run (OfSystem ex_feedback)))
    = [("A.u", None); ("A.x", Some "B.y"); ("B.x", Some "A.y")]
  ∧ source_after (ex_run (OfSystem ex_feedback)) ≠ OfSystem ex_feedback.
Proof.
  split; [reflexivity|]. split; [vm_compute; reflexivity|].
  intros H. apply (f_equal connections_of) in H. vm_compute in H. discriminate.
Qed.

Lemma non_root_group_counterexample :
  returned (ex_run (OfSystem ex_subgroup)) = Ok []
  ∧ keys ([] : snapshot) ≠ top_level_keys
  ∧ ∃ snap',
      returned (ex_run (OfProblem {| model := ex_subgroup; driver := ex_driver |}))
      = Ok snap'
      ∧ keys snap' = top_level_keys.
Proof.
  split; [vm_compute; reflexivity|]. split; [discriminate|].
  eexists. split; vm_compute; reflexivity.
Qed.

Lemma root_group_snapshot_shape_witness :
  keys ex_snap = top_level_keys
  ∧ odict_get ex_snap "driver" = Some (VDriver no_driver)
  ∧ ∃ snap',
      returned (ex_run (OfProblem {| model := ex_feedback; driver := ex_driver |}))
      = Ok snap'
      ∧ keys snap' = top_level_keys
      ∧ ∀ k, k ≠ "driver" → odict_get ex_snap k = odict_get snap' k.
Proof.
  apply (root_group_snapshot_shape ex_allgather ex_graph ex_scc adjacency_walk ex_vars ex_vars
           ex_metadata ex_root_attrs false ex_conn [ex_A; ex_B] ex_driver ex_snap);
    vm_compute; reflexivity.
Defined.

Lemma two_scc_sets_fail_fast_witness :
  (∀ orders, ∃ e,
     extract_connections adjacency_walk (ex_graph (sorted_root ex_feedback))
       (scc_list_of ex_graph ex_scc_overlap ex_feedback) orders
       (sorted_items ex_conn) = Raise e)
  ∧ ∃ e,
      returned (_get_viewer_data ex_allgather ex_graph ex_scc_overlap adjacency_walk ex_vars ex_vars
                  ex_metadata (OfSystem ex_feedback)) = Raise e.
Proof.
  apply (two_scc_sets_fail_fast ex_allgather ex_graph ex_scc_overlap adjacency_walk ex_vars ex_vars
           ex_metadata (OfSystem ex_feedback) ex_feedback 0 "B.x" "A.y" 0 1
           {[ "A"; "B" ]} {[ "B"; "A"; "C" ]});
    try (vm_compute; reflexivity); try lia; split; compute_done.
Defined.

Lemma cycle_arrows_within_window_witness :
  ∃ root,
    root_group_of (OfSystem ex_feedback) = Some root
    ∧ arrow_within (scc_list_of ex_graph ex_scc root) (exec_orders_of ex_allgather root)
        ["A"; "B"] (rsplit_dot_0 "B.y") (rsplit_dot_0 "A.x") (0, 1).
Proof.
  apply (cycle_arrows_within_window ex_allgather ex_graph ex_scc adjacency_walk ex_vars ex_vars
           ex_metadata (OfSystem ex_feedback) ex_snap ex_connections ["A"; "B"] 0
           {| src := "B.y"; tgt := "A.x"; cycle_arrows := Some [(0, 1)] |}
           [(0, 1)] 0 (0, 1));
    vm_compute; reflexivity.
Defined.

Lemma cycle_arrows_present_iff_registered_witness :
  ∃ root edges_list st st',
    root_group_of (OfSystem ex_feedback) = Some root
    ∧ cycle_edges adjacency_walk (ex_graph (sorted_root root)) (scc_list_of ex_graph ex_scc root)
        (exec_orders_of ex_allgather root) "B.y" "A.x" st = Ok (edges_list, st')
    ∧ (edges_list = [] → Some [(0, 1)] = None)
    ∧ (edges_list ≠ [] →
       ∃ arrows, Some [(0, 1)] = Some arrows ∧ arrows ≠ []
                 ∧ Sorted arrow_le arrows ∧ arrows ≡ₚ edges_list)
    ∧ Some [(0, 1)] ≠ Some [].
Proof.
  apply (cycle_arrows_present_iff_registered ex_allgather ex_graph ex_scc adjacency_walk ex_vars
           ex_vars ex_metadata (OfSystem ex_feedback) ex_snap ex_connections 0
           {| src := "B.y"; tgt := "A.x"; cycle_arrows := Some [(0, 1)] |});
    vm_compute; reflexivity.
Defined.

Lemma undefined_sources_omitted_witness :
  ((∀ out_abs, odict_get ex_conn "A.x" = Some (Some out_abs) →
      ∃ i c, ex_connections !! i = Some c ∧ tgt c = "A.x" ∧ src c = out_abs
             ∧ ∀ j c', ex_connections !! j = Some c' → tgt c' = "A.x" → j = i)
   ∧ ((¬ ∃ out_abs, odict_get ex_conn "A.x" = Some (Some out_abs)) →
      ∀ c, c ∈ ex_connections → tgt c ≠ "A.x"))
  ∧ ((∀ out_abs, odict_get ex_conn "A.u" = Some (Some out_abs) →
        ∃ i c, ex_connections !! i = Some c ∧ tgt c = "A.u" ∧ src c = out_abs
               ∧ ∀ j c', ex_connections !! j = Some c' → tgt c' = "A.u" → j = i)
     ∧ ((¬ ∃ out_abs, odict_get ex_conn "A.u" = Some (Some out_abs)) →
        ∀ c, c ∈ ex_connections → tgt c ≠ "A.u")).
Proof.
  split;
    apply (undefined_sources_omitted ex_allgather ex_graph ex_scc adjacency_walk ex_vars ex_vars
             ex_metadata (OfSystem ex_feedback) ex_snap ex_connections);
    [reflexivity | compute_done | vm_compute; reflexivity | vm_compute; reflexivity
    |reflexivity | compute_done | vm_compute; reflexivity | vm_compute; reflexivity].
Defined.




Lemma leaf_children_order_witness :
  let system := Component ex_A_attrs ExplicitComponent [("A.y", "A.x")] in
  ∃ cont_in disc_in cont_out disc_out,
    children_of ex_leaf = VarNode <$> (cont_in ++ disc_in ++ cont_out ++ disc_out)
    ∧ Forall2 (λ n v, _get_var_dict system input n = Ok v)
        (_var_abs_names ex_A_attrs input) cont_in
    ∧ Forall2 (λ n v, _get_var_dict system input n = Ok v)
        (keys (_var_discrete ex_A_attrs input)) disc_in
    ∧ Forall2 (λ n v, _get_var_dict system output n = Ok v)
        (_var_abs_names ex_A_attrs output) cont_out
    ∧ Forall2 (λ n v, _get_var_dict system output n = Ok v)
        (keys (_var_discrete ex_A_attrs output)) disc_out
    ∧ Forall (λ v, vd_type v = "param") (cont_in ++ disc_in)
    ∧ Forall (λ v, vd_type v = "unknown") (cont_out ++ disc_out).
Proof.
  apply (leaf_children_order ex_allgather ex_A_attrs ExplicitComponent
           [("A.y", "A.x")] false (∅, 0) ex_leaf ({[ "A" := 0 ]}, 1)).
  vm_compute; reflexivity.
Defined.

(** * More properties *)

Section More.

Context (allgather : SystemAttrs → list tree_node → list (list tree_node)).
Context (compute_sys_graph : System → DiGraph).
Context (strongly_connected_components : DiGraph → list (gset string)).
Context (walk : edge_walk).
Context (get_design_vars get_responses : System → odict (odict pyvalue)).
Context (problem_metadata : string → result snapshot).

Local Abbreviation get_tree_dict := (_get_tree_dict allgather).
Local Abbreviation get_viewer_data :=
  (_get_viewer_data allgather compute_sys_graph strongly_connected_components
     walk get_design_vars get_responses problem_metadata).
Local Abbreviation build :=
  (build_data_dict allgather compute_sys_graph strongly_connected_components
     walk get_design_vars get_responses).
Local Abbreviation scc_of := (scc_list_of compute_sys_graph strongly_connected_components).
Local Abbreviation orders_of := (exec_orders_of allgather).

(** ** More on the tree builder *)

Lemma leaf_pathnames_components system :
  leaf_pathnames system = (λ c, sys_pathname (attrs c)) <$> leaf_components system.
Proof.
  induction system as [a cls sj | a pg conn subs IH] using System_nested_ind; [done|].
  simpl. induction IH as [|s l Hs _ IHl]; [done|].
  simpl in *. rewrite fmap_app. f_equal; [apply Hs | apply IHl].
Qed.



Lemma M_bind_Ok_intro {S A B} (m : M S A) (k : A → M S B) s a s1 :
  m s = Ok (a, s1) → (m ≫= k) s = k a s1.
Proof. intros H. unfold mbind, M_bind. by rewrite H. Qed.

Lemma M_bind_Raise {S A B} (m : M S A) (k : A → M S B) s e :
  (m ≫= k) s = Raise e →
  m s = Raise e ∨ ∃ a s1, m s = Ok (a, s1) ∧ k a s1 = Raise e.
Proof.
  unfold mbind, M_bind. destruct (m s) as [[a s1]|e']; [eauto|].
  intros [= ->]. by left.
Qed.

Lemma mapM_Ok_intro {A B} (f : A → result B) (P : A → Prop) l :
  (∀ x, P x → ∃ y, f x = Ok y) → Forall P l → ∃ l', mapM f l = Ok l'.
Proof.
  intros Hf. induction 1 as [|x l Hx _ [l' IH]]; simpl; [by eexists|].
  destruct (Hf x Hx) as [y Hy]. rewrite Hy, IH. simpl. by eexists.
Qed.

Lemma mapM_Raise {A B} (f : A → result B) l e :
  mapM f l = Raise e → ∃ x, x ∈ l ∧ f x = Raise e.
Proof.
  induction l as [|x l IH]; simpl; [done|].
  destruct (f x) as [y|e'] eqn:Ex; simpl.
  - destruct (mapM f l) as [l'|e'] eqn:El; simpl; [done|].
    intros [= ->]. destruct IH as (x' & ? & ?); [done|].
    exists x'. split; [by right | done].
  - intros [= ->]. exists x. split; [by left | done].
Qed.

Lemma get_var_dict_known system typ name :
  var_known (attrs system) typ name → ∃ v, _get_var_dict system typ name = Ok v.
Proof.
  unfold var_known, _get_var_dict, getitem.
  destruct (odict_get _ name) as [m|].
  - intros [value Hv]. simpl. rewrite Hv. simpl. by eexists.
  - intros (m & Hm & [value Hv] & [prom Hp]). unfold meta in *.
    rewrite Hm. simpl. rewrite Hp. simpl. rewrite Hv. simpl. by eexists.
Qed.

Lemma get_var_dict_Raise system typ name e :
  _get_var_dict system typ name = Raise e →
  e = KeyError ∧ ¬ var_known (attrs system) typ name.
Proof.
  intros H. split.
  - revert H. unfold _get_var_dict, getitem.
    repeat (match goal with
            | |- context [match ?x with Some _ => _ | None => _ end] =>
                destruct x
            end; simpl); congruence.
  - intros Hk. apply (get_var_dict_known system) in Hk as [v Hv]. congruence.
Qed.

Lemma var_children_known system typ :
  leaf_vars_known system → ∃ ch, var_children system typ = Ok ch.
Proof.
  intros Hk. specialize (Hk typ). apply Forall_app in Hk as [Hc Hd].
  unfold var_children.
  destruct (mapM_Ok_intro _ _ _ (get_var_dict_known system typ) Hc) as [c ->].
  destruct (mapM_Ok_intro _ _ _ (get_var_dict_known system typ) Hd) as [d ->].
  simpl. by eexists.
Qed.

Lemma var_children_Raise system typ e :
  var_children system typ = Raise e → e = KeyError ∧ ¬ leaf_vars_known system.
Proof.
  unfold var_children. intros H.
  assert (∃ name, name ∈ _var_abs_names (attrs system) typ
                          ++ keys (_var_discrete (attrs system) typ)
                  ∧ _get_var_dict system typ name = Raise e) as (name & Hin & Hr).
  { destruct (mapM _ (_var_abs_names _ _)) as [c|e'] eqn:Ec; simpl in H.
    - destruct (mapM _ (keys _)) as [d|e'] eqn:Ed; simpl in H; [done|].
      injection H as ->. apply mapM_Raise in Ed as (x & ? & ?).
      exists x. split; [apply elem_of_app; by right | done].
    - injection H as ->. apply mapM_Raise in Ec as (x & ? & ?).
      exists x. split; [apply elem_of_app; by left | done]. }
  apply get_var_dict_Raise in Hr as [-> Hn]. split; [done|].
  intros Hk. apply Hn. specialize (Hk typ).
  by eapply (proj1 (Forall_forall _ _) Hk).
Qed.

Lemma get_tree_dict_total system : ∀ is_parallel st,
  Forall leaf_vars_known (leaf_components system) →
  ∃ tree, get_tree_dict system is_parallel st
          = Ok (tree, foldl record_leaf st (leaf_pathnames system)).
Proof.
  induction system as [a cls sj | a pg conn subs IH] using System_nested_ind;
    intros is_parallel st Hk.
  - simpl in Hk. rewrite Forall_singleton in Hk. destruct st as [orders idx]. simpl.
    destruct (var_children_known _ input Hk) as [ins ->].
    destruct (var_children_known _ output Hk) as [outs ->].
    simpl. by eexists.
  - simpl in *.
    assert (∃ children,
      (fix build (l : list System) : M exec_state (list tree_node) :=
         match l with
         | [] => mret []
         | s :: l' =>
             t ← get_tree_dict s (is_parallel || pg);
             ts ← build l';
             mret (t :: ts)
         end) subs st
      = Ok (children, foldl record_leaf st (concat (leaf_pathnames <$> subs))))
      as [children Hch].
    { revert st. induction IH as [|s l Hs _ IHl]; intros st; [by eexists|].
      simpl in Hk. apply Forall_app in Hk as [Hk1 Hk2].
      destruct (Hs (is_parallel || pg) st Hk1) as [t Ht].
      destruct (IHl Hk2 (foldl record_leaf st (leaf_pathnames s))) as [ts Hts].
      exists (t :: ts). erewrite M_bind_Ok_intro by exact Ht.
      erewrite M_bind_Ok_intro by exact Hts. simpl. by rewrite foldl_app. }
    erewrite M_bind_Ok_intro by exact Hch. by eexists.
Qed.


(** X3: the tree builder raises nothing but [KeyError], and only when a
    variable of some leaf component is not known to its metadata
    tables. *)
Theorem tree_builder_raises_KeyError system : ∀ is_parallel st e,
  get_tree_dict system is_parallel st = Raise e →
  e = KeyError ∧ ¬ Forall leaf_vars_known (leaf_components system).
Proof.
  intros is_parallel st e H. split.
  - revert is_parallel st H.
    induction system as [a cls sj | a pg conn subs IH] using System_nested_ind;
      intros is_parallel st H.
    + destruct st as [orders idx]. simpl in H.
      destruct (var_children _ input) as [ins|e'] eqn:Ei; simpl in H.
      * destruct (var_children _ output) as [outs|e'] eqn:Eo; simpl in H; [done|].
        injection H as ->. by apply var_children_Raise in Eo as [-> _].
      * injection H as ->. by apply var_children_Raise in Ei as [-> _].
    + simpl in H. apply M_bind_Raise in H as [H|(ch & st1 & _ & H)]; [|done].
      revert st H.
      induction IH as [|s l Hs _ IHl]; intros st H; [done|].
      apply M_bind_Raise in H as [H|(t & st1 & _ & H)]; [by eapply Hs|].
      apply M_bind_Raise in H as [H|(ts & st2 & _ & H)]; [by eapply IHl | done].
  - intros Hk. destruct (get_tree_dict_total system is_parallel st Hk) as [tree Ht].
    congruence.
Qed.

Lemma var_children_Ok system typ ch :
  var_children system typ = Ok ch → ∃ l, ch = VarNode <$> l.
Proof.
  unfold var_children. intros H.
  destruct (mapM _ (_var_abs_names _ _)) as [c|]; simpl in H; [|done].
  destruct (mapM _ (keys _)) as [d|]; simpl in H; [|done].
  injection H as <-. by eexists.
Qed.

Lemma sys_nodes_vars (l : list var_dict) : concat (sys_nodes <$> (VarNode <$> l)) = [].
Proof. induction l as [|v l IH]; [done|]. simpl. exact IH. Qed.

Lemma get_tree_dict_component a cls sj is_parallel st tree st' :
  get_tree_dict (Component a cls sj) is_parallel st = Ok (tree, st') →
  sys_nodes tree
  = [ {| t_name := shown_name (Component a cls sj);
         t_type := if decide (sys_name a = EmptyString) then "root" else "subsystem";
         t_subsystem_type := "component";
         t_is_parallel := is_parallel;
         t_component_type := component_type_of cls;
         t_linear_solver := linear_solver_of (Component a cls sj);
         t_nonlinear_solver := nonlinear_solver_of (Component a cls sj) |} ].
Proof.
  destruct st as [orders idx]. simpl. intros H.
  destruct (var_children _ input) as [ins|] eqn:Ei; simpl in H; [|done].
  destruct (var_children _ output) as [outs|] eqn:Eo; simpl in H; [|done].
  injection H as <- _.
  apply var_children_Ok in Ei as [li ->]. apply var_children_Ok in Eo as [lo ->].
  simpl. f_equal. by rewrite <- fmap_app, sys_nodes_vars.
Qed.

(** What a group on one process builds: its own node over the trees of
    its subsystems. *)
Lemma get_tree_dict_group a pg conn subs is_parallel st tree st' :
  comm_size (sys_comm a) ≤ 1 →
  get_tree_dict (Group a pg conn subs) is_parallel st = Ok (tree, st') →
  ∃ d children,
    tree = SysNode d children
    ∧ t_subsystem_type d = "group"
    ∧ t_is_parallel d = is_parallel || pg
    ∧ Forall2 (λ s t, ∃ st1 st2,
                 get_tree_dict s (is_parallel || pg) st1 = Ok (t, st2))
        subs children.
Proof.
  intros Hsize H. simpl in H.
  apply M_bind_Ok in H as (children & st1 & Hch & H).
  rewrite decide_False in H by lia. apply M_ret_Ok in H as [<- <-].
  eexists _, children. split_and!; [reflexivity | done | done |].
  clear Hsize. revert st children Hch.
  induction subs as [|s l IH]; intros st children Hch.
  - apply M_ret_Ok in Hch as [<- _]. constructor.
  - apply M_bind_Ok in Hch as (t & st2 & Ht & Hch).
    apply M_bind_Ok in Hch as (ts & st3 & Hts & Hch).
    apply M_ret_Ok in Hch as [<- <-]. constructor; [by eauto|]. by eapply IH.
Qed.

Lemma filter_concat {A} (P : A → Prop) `{∀ x, Decision (P x)} (ls : list (list A)) :
  filter P (concat ls) = concat (filter P <$> ls).
Proof.
  induction ls as [|l ls IH]; [done|]. simpl. by rewrite filter_app, IH.
Qed.

(** X4: on one process, the component nodes of the tree are the leaf
    components of the system, in depth-first order, each under the name
    it is shown by; with the execution orders counted in that same order,
    the i-th component node of the tree is the component of order i. *)
Theorem tree_mirrors_leaves system : ∀ is_parallel st tree st',
  single_process system = true →
  get_tree_dict system is_parallel st = Ok (tree, st') →
  component_names tree = shown_name <$> leaf_components system.
Proof.
  induction system as [a cls sj | a pg conn subs IH] using System_nested_ind;
    intros is_parallel st tree st' Hsp H.
  - apply get_tree_dict_component in H. unfold component_names. rewrite H.
    rewrite filter_cons, filter_nil. by rewrite decide_True.
  - simpl in Hsp. apply andb_prop in Hsp as [Hsize Hsubs].
    apply bool_decide_eq_true in Hsize.
    apply get_tree_dict_group in H as (d & children & -> & Hty & _ & Hch); [|done].
    unfold component_names. simpl. rewrite filter_cons.
    rewrite decide_False by (rewrite Hty; discriminate).
    rewrite filter_concat, <- list_fmap_compose.
    clear Hty. induction Hch as [|s t l ts (st1 & st2 & Ht) _ IHl]; [done|].
    simpl in Hsubs. apply andb_prop in Hsubs as [Hs Hl].
    apply Forall_cons in IH as [IHs IH].
    simpl. rewrite !fmap_app. f_equal; [|by apply IHl].
    by eapply IHs.
Qed.

(** X5: on one process, every system node of the tree of a parallel
    group, or of a system below one, is marked parallel; and in a system
    without parallel groups that is not below one, none is. *)
Theorem is_parallel_inherited system : ∀ is_parallel st tree st',
  single_process system = true →
  get_tree_dict system is_parallel st = Ok (tree, st') →
  (is_parallel || is_ParallelGroup system = true →
   Forall (λ d, t_is_parallel d = true) (sys_nodes tree))
  ∧ (is_parallel = false → has_parallel_group system = false →
     Forall (λ d, t_is_parallel d = false) (sys_nodes tree)).
Proof.
  induction system as [a cls sj | a pg conn subs IH] using System_nested_ind;
    intros is_parallel st tree st' Hsp H.
  - apply get_tree_dict_component in H. rewrite H. simpl.
    rewrite orb_false_r. split; intros ->; repeat constructor.
  - simpl in Hsp. apply andb_prop in Hsp as [Hsize Hsubs].
    apply bool_decide_eq_true in Hsize.
    apply get_tree_dict_group in H as (d & children & -> & _ & Hpar & Hch); [|done].
    simpl. split.
    + intros Htrue. rewrite Htrue in *. constructor; [done|].
      clear Hpar. induction Hch as [|s t l ts (st1 & st2 & Ht) _ IHl]; [constructor|].
      simpl in Hsubs. apply andb_prop in Hsubs as [Hs Hl].
      apply Forall_cons in IH as [IHs IH].
      simpl. apply Forall_app. split; [|by apply IHl].
      by apply (IHs _ _ _ _ Hs Ht).
    + intros -> Hnone. apply orb_false_elim in Hnone as [-> Hnone].
      constructor; [by rewrite Hpar|].
      clear Hpar. induction Hch as [|s t l ts (st1 & st2 & Ht) _ IHl]; [constructor|].
      simpl in Hsubs, Hnone. apply andb_prop in Hsubs as [Hs Hl].
      apply orb_false_elim in Hnone as [Hn1 Hn2].
      apply Forall_cons in IH as [IHs IH].
      simpl. apply Forall_app. split; [|by apply IHl].
      by apply (IHs _ _ _ _ Hs Ht).
Qed.

(** X6: in a group that spans several processes, a process whose first
    subsystem has a rank other than 0 contributes no children: the tree
    holds what the other processes gathered, while the execution orders of
    its own leaves are recorded all the same. *)
Theorem nonzero_rank_children_discarded a pg conn s0 subs is_parallel st tree st' :
  1 < comm_size (sys_comm a) →
  comm_rank (sys_comm (attrs s0)) ≠ 0 →
  get_tree_dict (Group a pg conn (s0 :: subs)) is_parallel st = Ok (tree, st') →
  children_of tree = concat (allgather a [])
  ∧ st' = foldl record_leaf st (leaf_pathnames (Group a pg conn (s0 :: subs))).
Proof.
  intros Hsize Hrank H. split; [|by eapply get_tree_dict_state].
  simpl in H. apply M_bind_Ok in H as (children & st1 & _ & H).
  rewrite decide_True in H by done. rewrite decide_True in H by done.
  by apply M_ret_Ok in H as [<- _].
Qed.

(** ** More on the pathname index and the connections *)

Lemma for_each_invariant {S A B} (J : S → Prop) (body : A → B → M S B) l :
  (∀ x acc st acc' st', x ∈ l → J st → body x acc st = Ok (acc', st') → J st') →
  ∀ acc st acc' st', J st → for_each l body acc st = Ok (acc', st') → J st'.
Proof.
  induction l as [|x l IH]; intros Hbody acc st acc' st' HJ H.
  - by apply M_ret_Ok in H as [_ <-].
  - rewrite for_each_cons in H.
    destruct (body x acc st) as [[acc1 st1]|] eqn:E; [|done].
    eapply IH; [| |exact H].
    + intros y ????? . apply Hbody. by right.
    + eapply Hbody; [by left | exact HJ | exact E].
Qed.

Lemma index_exact_empty :
  index_exact {| sys_pathnames_list := []; sys_pathnames_dict := ∅ |}.
Proof. intros p i. simpl. by rewrite lookup_empty. Qed.

Lemma index_exact_NoDup st : index_exact st → NoDup (sys_pathnames_list st).
Proof.
  intros Hex. apply NoDup_alt. intros i j p Hi Hj.
  apply Hex in Hi, Hj. congruence.
Qed.

Lemma index_pathname_listed Q p st :
  Q p → listed Q st → listed Q (index_pathname p st).
Proof.
  intros HQ [Hex Hall]. unfold index_pathname.
  destruct (sys_pathnames_dict st !! p) as [i|] eqn:E; [done|].
  assert (p ∉ sys_pathnames_list st) as Hfresh.
  { intros [i Hi]%list_elem_of_lookup. apply Hex in Hi. congruence. }
  split; simpl.
  - intros q i. rewrite length_app. simpl.
    replace (length (sys_pathnames_list st) + 1 - 1)
      with (length (sys_pathnames_list st)) by lia.
    destruct (decide (p = q)) as [<-|Hne].
    + rewrite lookup_insert_eq. split.
      * intros [= <-]. rewrite lookup_app_r by done. by rewrite Nat.sub_diag.
      * intros Hi. apply lookup_app_Some in Hi as [Hi|[Hge Hi]].
        -- exfalso. apply Hfresh. eapply list_elem_of_lookup_2, Hi.
        -- destruct (i - length (sys_pathnames_list st)) as [|n] eqn:En; [|done].
           f_equal. lia.
    + rewrite lookup_insert_ne by done. rewrite (Hex q i). split.
      * intros Hi. by apply lookup_app_l_Some.
      * intros Hi. apply lookup_app_Some in Hi as [Hi|[_ Hi]]; [done|].
        destruct (i - length (sys_pathnames_list st)); simplify_eq/=.
  - apply Forall_app. split; [done|]. by constructor.
Qed.

Lemma register_edge_listed Q str e acc st acc' st' :
  Q e.1 → Q e.2 → listed Q st →
  register_edge str e acc st = Ok (acc', st') → listed Q st'.
Proof.
  intros H1 H2 HJ. unfold register_edge. case_decide as Hne.
  - intros H. apply result_bind_Ok in H as (? & _ & H).
    apply result_bind_Ok in H as (? & _ & [= _ <-]).
    apply index_pathname_listed; [done|]. by apply index_pathname_listed.
  - by intros [_ <-]%M_ret_Ok.
Qed.

Lemma scan_scc_listed G (scc_list : list (gset string)) orders s t li acc st acc' st' :
  li ∈ scc_list →
  listed (in_cycle scc_list) st →
  scan_scc walk G orders s t li acc st = Ok (acc', st') →
  listed (in_cycle scc_list) st'.
Proof.
  intros Hli HJ. destruct acc as [count edges]. unfold scan_scc.
  case_decide as Hboth; [|by intros [_ <-]%M_ret_Ok].
  case_decide as Hcount; [done|]. intros H.
  apply M_bind_Ok in H as (? & ? & [_ ->]%lift_Ok & H).
  apply M_bind_Ok in H as (? & ? & [_ ->]%lift_Ok & H).
  apply M_bind_Ok in H as (nodes & ? & [Hnodes ->]%lift_Ok & H).
  apply M_bind_Ok in H as (? & st1 & Hloop & [_ <-]%M_ret_Ok).
  eapply for_each_invariant; [|exact HJ|exact Hloop].
  intros e acc0 st0 acc1 st2 He HJ0 Hreg.
  apply subgraph_edges_elem in He as [He1 He2].
  destruct (window_nodes_spec _ _ _ _ _ Hnodes _ He1) as [Hl1 _].
  destruct (window_nodes_spec _ _ _ _ _ Hnodes _ He2) as [Hl2 _].
  eapply register_edge_listed; [| |exact HJ0|exact Hreg]; by exists li.
Qed.

Lemma connect_listed G scc_list orders item cl st cl' st' :
  listed (in_cycle scc_list) st →
  connect walk G scc_list orders item cl st = Ok (cl', st') →
  listed (in_cycle scc_list) st'.
Proof.
  intros HJ. unfold connect. destruct item.2 as [out_abs|];
    [|by intros [_ <-]%M_ret_Ok].
  intros H. apply M_bind_Ok in H as (edges & st1 & Hc & [_ <-]%M_ret_Ok).
  unfold cycle_edges in Hc.
  apply M_bind_Ok in Hc as (acc & st2 & Hloop & [_ <-]%M_ret_Ok).
  eapply for_each_invariant; [|exact HJ|exact Hloop].
  intros li acc0 st0 acc1 st3 Hli HJ0 Hs. by eapply scan_scc_listed.
Qed.

(** X7: the pathname index the extractor returns is exact and free of
    duplicates: the dict maps a pathname to [i] exactly when it stands at
    place [i] of [sys_pathnames_list]; and every pathname listed is a
    member of one of the SCC sets (a system found in a cycle). *)
Theorem pathname_index_exact G scc_list orders items cl ix :
  extract_connections walk G scc_list orders items = Ok (cl, ix) →
  (∀ p i, sys_pathnames_dict ix !! p = Some i ↔ sys_pathnames_list ix !! i = Some p)
  ∧ NoDup (sys_pathnames_list ix)
  ∧ ∀ p, p ∈ sys_pathnames_list ix → ∃ li, li ∈ scc_list ∧ p ∈ li.
Proof.
  intros H. unfold extract_connections in H.
  assert (listed (in_cycle scc_list) ix) as [Hex Hall].
  { eapply for_each_invariant; [| |exact H].
    - intros item acc st acc' st' _ HJ Hc. by eapply connect_listed.
    - split; [apply index_exact_empty | constructor]. }
  split_and!; [done | by apply index_exact_NoDup |].
  by apply Forall_forall.
Qed.

(** ** When the extractor returns and when it raises *)

Lemma index_pathname_has p st :
  is_Some (sys_pathnames_dict (index_pathname p st) !! p).
Proof.
  unfold index_pathname. destruct (sys_pathnames_dict st !! p) eqn:E.
  - by rewrite E.
  - simpl. by rewrite lookup_insert_eq.
Qed.

Lemma index_pathname_keeps p st q :
  is_Some (sys_pathnames_dict st !! q) →
  is_Some (sys_pathnames_dict (index_pathname p st) !! q).
Proof.
  intros Hq. unfold index_pathname. destruct (sys_pathnames_dict st !! p) eqn:E; [done|].
  simpl. rewrite lookup_insert_ne; [done|]. intros ->. rewrite E in Hq. by destruct Hq.
Qed.

Lemma register_edge_total str e acc st :
  ∃ acc' st', register_edge str e acc st = Ok (acc', st').
Proof.
  unfold register_edge. case_decide as Hne; [|by eexists _, _].
  destruct (index_pathname_keeps e.2 (index_pathname e.1 st) e.1
              (index_pathname_has e.1 st)) as [i Hi].
  destruct (index_pathname_has e.2 (index_pathname e.1 st)) as [j Hj].
  unfold getitem. rewrite Hi, Hj. simpl. by eexists _, _.
Qed.

Lemma edges_loop_total str edges : ∀ acc st,
  ∃ acc' st', for_each edges (register_edge str) acc st = Ok (acc', st').
Proof.
  induction edges as [|e edges IH]; intros acc st; [by eexists _, _|].
  rewrite for_each_cons.
  destruct (register_edge_total str e acc st) as (acc1 & st1 & ->). apply IH.
Qed.

Lemma window_nodes_total orders (li : gset string) lo hi :
  (∀ n, n ∈ li → is_Some (orders !! n)) →
  ∃ nodes, window_nodes orders li lo hi = Ok nodes.
Proof.
  intros Hcov. unfold window_nodes.
  destruct (mapM_Ok_intro (λ n, o ← getitem orders n; Ok (n, o))
              (λ n, is_Some (orders !! n)) (elements li)) as [ns ->].
  - intros n [o Ho]. unfold getitem. rewrite Ho. by eexists.
  - apply Forall_forall. intros n Hn. apply Hcov. by apply elem_of_elements.
  - simpl. by eexists.
Qed.

Lemma scan_scc_total G scc_list orders s t li count edges st :
  li ∈ scc_list → orders_cover orders scc_list →
  count + length (filter (holds_both s t) [li]) ≤ 1 →
  ∃ r st', scan_scc walk G orders s t li (count, edges) st = Ok (r, st').
Proof.
  intros Hli Hcov Hc. unfold scan_scc.
  case_decide as Hboth; [|by eexists _, _].
  rewrite filter_cons, filter_nil in Hc.
  rewrite (decide_True (P:=holds_both s t li)) in Hc by done. simpl in Hc.
  rewrite decide_False by lia.
  destruct Hboth as [Hs Ht].
  destruct (Hcov li t Hli Ht) as [ot Hot]. destruct (Hcov li s Hli Hs) as [os Hos].
  destruct (window_nodes_total orders li (ot `min` os) (ot `max` os)) as [nodes Hn].
  { intros n Hin. by eapply Hcov. }
  destruct (edges_loop_total (s +:+ " " +:+ t) (subgraph_edges walk G nodes) edges st)
    as (edges' & st' & Hl).
  exists (S count, edges'), st'.
  unfold getitem. rewrite Hot, Hos. simpl.
  unfold mbind, M_bind at 1. simpl. unfold mbind, M_bind at 1. simpl.
  rewrite Hn. simpl. unfold mbind, M_bind at 1. simpl.
  unfold mbind, M_bind at 1. by rewrite Hl.
Qed.

Lemma scc_loop_total G scc_list orders s t l : ∀ count edges st,
  l ⊆ scc_list → orders_cover orders scc_list →
  count + length (filter (holds_both s t) l) ≤ 1 →
  ∃ r st', for_each l (scan_scc walk G orders s t) (count, edges) st = Ok (r, st').
Proof.
  induction l as [|li l IH]; intros count edges st Hsub Hcov Hc;
    [by eexists _, _|].
  rewrite for_each_cons. rewrite filter_cons in Hc.
  destruct (scan_scc_total G scc_list orders s t li count edges st)
    as ([count1 edges1] & st1 & H1); [apply Hsub; by left | done | |].
  { rewrite filter_cons, filter_nil. case_decide; simpl in *; lia. }
  rewrite H1. apply scan_scc_count in H1 as [H1 _].
  rewrite filter_cons, filter_nil in H1.
  apply IH; [|done|].
  - intros x Hx. apply Hsub. by right.
  - case_decide; simpl in *; lia.
Qed.

Lemma connect_total G scc_list orders item cl st :
  orders_cover orders scc_list →
  match item.2 with
  | Some out_abs => length (matching_sets scc_list out_abs item.1) ≤ 1
  | None => True
  end →
  ∃ cl' st', connect walk G scc_list orders item cl st = Ok (cl', st').
Proof.
  intros Hcov Hone. unfold connect. destruct item.2 as [out_abs|];
    [|by eexists _, _].
  destruct (scc_loop_total G scc_list orders (rsplit_dot_0 out_abs)
              (rsplit_dot_0 item.1) scc_list 0 [] st) as (r & st' & Hl);
    [done | done | exact Hone |].
  unfold cycle_edges. unfold mbind, M_bind at 1. unfold mbind, M_bind at 1.
  rewrite Hl. by eexists _, _.
Qed.

Lemma extract_connections_Ok G scc_list orders items :
  orders_cover orders scc_list →
  at_most_one_match scc_list items →
  ∃ cl ix, extract_connections walk G scc_list orders items = Ok (cl, ix).
Proof.
  intros Hcov Hone. unfold extract_connections.
  generalize ({| sys_pathnames_list := []; sys_pathnames_dict := ∅ |}).
  generalize (@nil connection).
  induction Hone as [|item items Hitem _ IH]; intros cl st; [by eexists _, _|].
  rewrite for_each_cons.
  destruct (connect_total G scc_list orders item cl st Hcov Hitem) as (cl1 & st1 & ->).
  apply IH.
Qed.

(** X8: when every member of every SCC set has an execution order and no
    connection has more than one SCC set holding both its owners, the
    connection extractor returns. *)
Theorem extract_connections_total G scc_list orders items :
  orders_cover orders scc_list →
  at_most_one_match scc_list items →
  ∃ cl ix, extract_connections walk G scc_list orders items = Ok (cl, ix).
Proof. apply extract_connections_Ok. Qed.

Lemma for_each_Raise {S A B} (body : A → B → M S B) l : ∀ acc st e,
  for_each l body acc st = Raise e →
  ∃ x acc1 st1, x ∈ l ∧ body x acc1 st1 = Raise e.
Proof.
  induction l as [|x l IH]; intros acc st e H; [done|].
  rewrite for_each_cons in H.
  destruct (body x acc st) as [[acc1 st1]|e'] eqn:E.
  - destruct (IH _ _ _ H) as (y & a & s & Hy & Hb).
    exists y, a, s. split; [by right | done].
  - injection H as ->. exists x, acc, st. split; [by left | done].
Qed.

Lemma scan_scc_Raise G scc_list orders s t li acc st e :
  li ∈ scc_list → orders_cover orders scc_list →
  scan_scc walk G orders s t li acc st = Raise e → e = ValueError.
Proof.
  intros Hli Hcov. destruct acc as [count edges].
  destruct (decide (count + length (filter (holds_both s t) [li]) ≤ 1)) as [Hc|Hc].
  - destruct (scan_scc_total G scc_list orders s t li count edges st Hli Hcov Hc)
      as (r & st' & ->). done.
  - unfold scan_scc.
    case_decide as Hboth.
    + case_decide; [by intros [= <-]|].
      rewrite filter_cons, filter_nil in Hc.
      rewrite (decide_True (P:=holds_both s t li)) in Hc by done. simpl in Hc. lia.
    + done.
Qed.

Lemma connect_Raise G scc_list orders item cl st e :
  orders_cover orders scc_list →
  connect walk G scc_list orders item cl st = Raise e → e = ValueError.
Proof.
  intros Hcov. unfold connect. destruct item.2 as [out_abs|]; [|done].
  intros H. apply M_bind_Raise in H as [H|(? & ? & _ & H)]; [|done].
  unfold cycle_edges in H. apply M_bind_Raise in H as [H|(? & ? & _ & H)]; [|done].
  apply for_each_Raise in H as (li & acc1 & st1 & Hli & H).
  by eapply scan_scc_Raise.
Qed.

Lemma at_most_one_match_or scc_list items :
  at_most_one_match scc_list items
  ∨ ∃ in_abs out_abs,
      (in_abs, Some out_abs) ∈ items
      ∧ 2 ≤ length (matching_sets scc_list out_abs in_abs).
Proof.
  induction items as [|[in_abs o] items IH]; [left; constructor|].
  destruct IH as [IH|(i & o' & Hin & Htwo)].
  - destruct o as [out_abs|].
    + destruct (decide (length (matching_sets scc_list out_abs in_abs) ≤ 1)).
      * left. by constructor.
      * right. exists in_abs, out_abs. split; [by left | lia].
    + left. by constructor.
  - right. exists i, o'. split; [by right | done].
Qed.

(** X9: when every member of every SCC set has an execution order, the
    connection extractor raises nothing but [ValueError], and only when
    some connection has two or more SCC sets holding both its owners. *)
Theorem extract_connections_raises_ValueError G scc_list orders items e :
  orders_cover orders scc_list →
  extract_connections walk G scc_list orders items = Raise e →
  e = ValueError
  ∧ ∃ in_abs out_abs,
      (in_abs, Some out_abs) ∈ items
      ∧ 2 ≤ length (matching_sets scc_list out_abs in_abs).
Proof.
  intros Hcov H. split.
  - unfold extract_connections in H.
    apply for_each_Raise in H as (item & cl & st & _ & H). by eapply connect_Raise.
  - destruct (at_most_one_match_or scc_list items) as [Hone|Htwo]; [|done].
    destruct (extract_connections_Ok G scc_list orders items Hcov Hone)
      as (cl & ix & Hok). congruence.
Qed.

(** ** The cycle arrows, exactly *)

Lemma reads_mono names names' ar e :
  names `prefix_of` names' → reads names ar e → reads names' ar e.
Proof. intros Hp [H1 H2]. split; by eapply prefix_lookup_Some. Qed.

Lemma register_edge_exact str e acc st acc' st' :
  index_wf st →
  register_edge str e acc st = Ok (acc', st') →
  if decide (edge_str e ≠ str)
  then ∃ ar, acc' = acc ++ [ar] ∧ reads (sys_pathnames_list st') ar e
  else acc' = acc.
Proof.
  intros Hwf. unfold register_edge, edge_str. case_decide as Hne.
  - destruct (index_pathname_spec e.1 st Hwf) as (Hwf1 & Hp1 & (i1 & Hd1 & Hl1) & Hk1).
    destruct (index_pathname_spec e.2 _ Hwf1) as (Hwf2 & Hp2 & (i2 & Hd2 & Hl2) & Hk2).
    apply Hk2 in Hd1. unfold getitem. rewrite Hd1, Hd2. simpl.
    intros [= <- <-]. exists (i1, i2). split; [done|].
    split; simpl; [by apply Hwf2 | done].
  - by intros [-> _]%M_ret_Ok.
Qed.

Lemma edges_loop_exact str edges : ∀ acc st acc' st',
  index_wf st →
  for_each edges (register_edge str) acc st = Ok (acc', st') →
  ∃ new, acc' = acc ++ new
         ∧ Forall2 (reads (sys_pathnames_list st')) new
             (filter (λ e, edge_str e ≠ str) edges).
Proof.
  induction edges as [|e edges IH]; intros acc st acc' st' Hwf H.
  - apply M_ret_Ok in H as [<- _]. exists []. rewrite app_nil_r. by split.
  - rewrite for_each_cons in H.
    destruct (register_edge str e acc st) as [[acc1 st1]|] eqn:E; [|done].
    pose proof (register_edge_spec _ _ _ _ _ _ Hwf E) as (Hwf1 & _ & _).
    pose proof (edges_loop_spec _ _ _ _ _ _ Hwf1 H) as (_ & Hp & _).
    apply register_edge_exact in E; [|done].
    apply IH in H as (new & -> & Hnew); [|done].
    rewrite filter_cons. case_decide as Hne.
    + destruct E as (ar & -> & Har). exists (ar :: new).
      split; [by rewrite <- app_assoc|]. constructor; [|done].
      by eapply reads_mono.
    + subst acc1. by exists new.
Qed.

Lemma window_nodes_eq orders (li : gset string) lo hi nodes :
  window_nodes orders li lo hi = Ok nodes →
  nodes = filter (λ n, in_window orders lo hi n = true) li.
Proof.
  unfold window_nodes. intros H.
  apply result_bind_Ok in H as (ns & Hns & [= <-]).
  apply mapM_Ok_Forall2 in Hns.
  apply set_eq. intros n. rewrite elem_of_list_to_set, elem_of_filter.
  rewrite list_elem_of_fmap. unfold in_window. split.
  - intros ([n' o] & -> & Hin). simpl.
    apply list_elem_of_filter in Hin as [Hwin Hin]. simpl in Hwin.
    apply list_elem_of_lookup in Hin as [i Hi].
    destruct (Forall2_lookup_r _ _ _ _ _ Hns Hi) as (m & Hm & Hf).
    apply result_bind_Ok in Hf as (o' & Ho' & [= <- <-]).
    unfold getitem in Ho'. destruct (orders !! m) as [o''|] eqn:Eo; [|done].
    injection Ho' as ->. split.
    + by apply bool_decide_eq_true.
    + apply elem_of_elements. eapply list_elem_of_lookup_2, Hm.
  - intros [Hwin Hin]. destruct (orders !! n) as [o|] eqn:Eo; [|done].
    apply bool_decide_eq_true in Hwin.
    apply elem_of_elements, list_elem_of_lookup in Hin as [i Hi].
    destruct (Forall2_lookup_l _ _ _ _ _ Hns Hi) as ([n' o'] & Hno & Hf).
    unfold getitem in Hf. rewrite Eo in Hf. simpl in Hf. injection Hf as <- <-.
    exists (n, o). split; [done|]. apply list_elem_of_filter. split; [done|].
    eapply list_elem_of_lookup_2, Hno.
Qed.

(** The edges one SCC set contributes to a connection with owners [s]
    and [t]. *)
Lemma scan_scc_exact G orders s t li count edges st count' edges' st' :
  index_wf st →
  scan_scc walk G orders s t li (count, edges) st = Ok ((count', edges'), st') →
  ∃ new, edges' = edges ++ new
         ∧ Forall2 (reads (sys_pathnames_list st')) new
             (l ← filter (holds_both s t) [li];
              filter (λ e, edge_str e ≠ s +:+ " " +:+ t)
                (subgraph_edges walk G
                   (filter (λ n, in_window orders
                                   (default 0 (orders !! t) `min` default 0 (orders !! s))
                                   (default 0 (orders !! t) `max` default 0 (orders !! s))
                                   n = true) l))).
Proof.
  intros Hwf. unfold scan_scc. rewrite filter_cons, filter_nil.
  case_decide as Hboth.
  - rewrite (decide_True (P:=holds_both s t li)) by done.
    case_decide as Hcount; [done|]. intros H.
    apply M_bind_Ok in H as (exe_tgt & st1 & [Htgt ->]%lift_Ok & H).
    apply M_bind_Ok in H as (exe_src & st1 & [Hsrc ->]%lift_Ok & H).
    apply M_bind_Ok in H as (nodes & st1 & [Hnodes ->]%lift_Ok & H).
    apply M_bind_Ok in H as (edges1 & st1 & Hloop & H).
    apply M_ret_Ok in H as [[= <- <-] <-].
    apply edges_loop_exact in Hloop as (new & -> & Hnew); [|done].
    exists new. split; [done|].
    unfold getitem in Htgt, Hsrc.
    destruct (orders !! t) as [ot|]; [|done].
    destruct (orders !! s) as [os|]; [|done].
    simplify_eq/=. apply window_nodes_eq in Hnodes as ->.
    by rewrite app_nil_r.
  - rewrite (decide_False (P:=holds_both s t li)) by done.
    intros [[= <- <-] <-]%M_ret_Ok. exists []. rewrite app_nil_r. by split.
Qed.

Lemma scc_loop_prefix G orders s t l : ∀ acc st acc' st',
  index_wf st →
  for_each l (scan_scc walk G orders s t) acc st = Ok (acc', st') →
  index_wf st' ∧ sys_pathnames_list st `prefix_of` sys_pathnames_list st'.
Proof.
  induction l as [|li l IH]; intros acc st acc' st' Hwf H.
  - by apply M_ret_Ok in H as [_ <-].
  - rewrite for_each_cons in H. destruct acc as [c e].
    destruct (scan_scc walk G orders s t li (c, e) st) as [[[c1 e1] st1]|] eqn:E; [|done].
    assert (li ∈ [li]) as Hli by (by left).
    destruct (scan_scc_spec walk G [li] orders s t li _ _ _ _ _ _ Hwf Hli E)
      as (Hwf1 & Hp1 & _).
    destruct (IH _ _ _ _ Hwf1 H) as [Hwf' Hp']. split; [done | by etrans].
Qed.

Lemma scc_loop_exact G orders s t l : ∀ count edges st count' edges' st',
  index_wf st →
  for_each l (scan_scc walk G orders s t) (count, edges) st = Ok ((count', edges'), st') →
  ∃ new, edges' = edges ++ new
         ∧ Forall2 (reads (sys_pathnames_list st')) new
             (li ← filter (holds_both s t) l;
              filter (λ e, edge_str e ≠ s +:+ " " +:+ t)
                (subgraph_edges walk G
                   (filter (λ n, in_window orders
                                   (default 0 (orders !! t) `min` default 0 (orders !! s))
                                   (default 0 (orders !! t) `max` default 0 (orders !! s))
                                   n = true) li))).
Proof.
  induction l as [|li l IH]; intros count edges st count' edges' st' Hwf H.
  - apply M_ret_Ok in H as [[= <- <-] <-]. exists []. rewrite app_nil_r. by split.
  - rewrite for_each_cons in H.
    destruct (scan_scc walk G orders s t li (count, edges) st)
      as [[[count1 edges1] st1]|] eqn:E; [|done].
    assert (li ∈ [li]) as Hli by (by left).
    destruct (scan_scc_spec walk G [li] orders s t li _ _ _ _ _ _ Hwf Hli E) as (Hwf1 & _).
    destruct (scc_loop_prefix _ _ _ _ _ _ _ _ _ Hwf1 H) as [_ Hpre].
    apply scan_scc_exact in E as (new1 & -> & Hn1); [|done].
    apply IH in H as (new2 & -> & Hn2); [|done].
    exists (new1 ++ new2). split; [by rewrite app_assoc|].
    rewrite filter_cons. rewrite filter_cons, filter_nil in Hn1.
    case_decide as Hboth; simpl in *.
    + rewrite app_nil_r in Hn1. apply Forall2_app; [|done].
      eapply Forall2_impl; [exact Hn1|]. intros ar e. by apply reads_mono.
    + apply Forall2_nil_inv_r in Hn1 as ->. done.
Qed.

Lemma cycle_edges_exact G scc_list orders out_abs in_abs st edges_list st' :
  index_wf st →
  cycle_edges walk G scc_list orders out_abs in_abs st = Ok (edges_list, st') →
  Forall2 (reads (sys_pathnames_list st')) edges_list
    (expected_cycle_edges walk G scc_list orders out_abs in_abs).
Proof.
  intros Hwf H. unfold cycle_edges in H.
  apply M_bind_Ok in H as ([count' edges'] & st1 & H & [<- <-]%M_ret_Ok).
  by apply scc_loop_exact in H as (new & -> & Hnew).
Qed.

Lemma expected_cycle_edges_Permutation G scc_list orders out_abs in_abs :
  expected_cycle_edges walk G scc_list orders out_abs in_abs
  ≡ₚ window_cycle_edges G scc_list orders out_abs in_abs.
Proof.
  unfold expected_cycle_edges, window_cycle_edges.
  induction (matching_sets scc_list out_abs in_abs) as [|li l IH]; [done|].
  simpl. apply Permutation_app; [|exact IH].
  by rewrite subgraph_edges_Permutation.
Qed.

(** X10: the cycle arrows registered for a connection read back, through
    the list of pathnames, as exactly the edges of the graph between the
    members of the matching SCC set whose execution orders lie in the
    window of the two owners, the direct source-to-target edge left out:
    each of these edges once, none else, in whatever order networkx
    yields them.  The entry of the connection carries the arrows sorted,
    or no [cycle_arrows] when there is none. *)
Theorem cycle_arrows_exact G scc_list orders items cl ix :
  extract_connections walk G scc_list orders items = Ok (cl, ix) →
  Forall2 (λ decl c,
             ∃ edges_list edges,
               c = emit_connection decl.2 decl.1 edges_list
               ∧ Forall2 (reads (sys_pathnames_list ix)) edges_list edges
               ∧ edges ≡ₚ window_cycle_edges G scc_list orders decl.2 decl.1)
    (defined_sources items) cl.
Proof.
  unfold extract_connections.
  assert (∀ items cl0 st0 cl ix,
    index_wf st0 →
    for_each items (connect walk G scc_list orders) cl0 st0 = Ok (cl, ix) →
    ∃ new, cl = cl0 ++ new
      ∧ Forall2 (λ decl c,
                   ∃ edges_list,
                     c = emit_connection decl.2 decl.1 edges_list
                     ∧ Forall2 (reads (sys_pathnames_list ix)) edges_list
                         (expected_cycle_edges walk G scc_list orders decl.2 decl.1))
          (defined_sources items) new) as Hgen.
  { clear. induction items as [|[in_abs out] items IH]; intros cl0 st0 cl ix Hwf H.
    - apply M_ret_Ok in H as [<- _]. exists []. rewrite app_nil_r. by split.
    - rewrite for_each_cons in H.
      destruct (connect walk G scc_list orders (in_abs, out) cl0 st0) as [[cl1 st1]|] eqn:E;
        [|done].
      unfold connect in E. simpl in E. destruct out as [out_abs|].
      + apply M_bind_Ok in E as (edges & st2 & Hedges & [<- <-]%M_ret_Ok).
        pose proof (cycle_edges_spec _ _ _ _ _ _ _ _ _ Hwf Hedges) as (Hwf1 & _ & _).
        pose proof (connections_loop_spec _ _ _ _ _ _ _ _ _ Hwf1 H) as (_ & Hpre & _).
        apply cycle_edges_exact in Hedges; [|done].
        apply IH in H as (new & -> & Hnew); [|done].
        exists (emit_connection out_abs in_abs edges :: new).
        split; [by rewrite <- app_assoc|].
        simpl. constructor; [|done]. exists edges. split; [done|].
        eapply Forall2_impl; [exact Hedges|]. intros ar e. by apply reads_mono.
      + apply M_ret_Ok in E as [<- <-]. by apply IH in H. }
  intros H. apply Hgen in H as (new & -> & Hnew); [|apply index_wf_empty].
  simpl. eapply Forall2_impl; [exact Hnew|].
  intros decl c (edges_list & -> & Hr).
  exists edges_list, (expected_cycle_edges walk G scc_list orders decl.2 decl.1).
  split; [done|]. split; [done|]. apply expected_cycle_edges_Permutation.
Qed.

Lemma scc_loop_no_match G orders s t l : ∀ acc st,
  filter (holds_both s t) l = [] →
  for_each l (scan_scc walk G orders s t) acc st = Ok (acc, st).
Proof.
  induction l as [|li l IH]; intros acc st Hnone; [done|].
  rewrite filter_cons in Hnone. rewrite for_each_cons.
  destruct (decide (holds_both s t li)) as [Hb|Hb]; [done|].
  assert (scan_scc walk G orders s t li acc st = Ok (acc, st)) as ->.
  { destruct acc as [count edges]. unfold scan_scc. by rewrite decide_False. }
  by apply IH.
Qed.

(** X11: when no SCC set holds both owners of any connection (so in a
    model without cycles), the extractor returns whatever the execution
    orders are: one entry without [cycle_arrows] for each connection
    with a source, in order, and an empty list of pathnames. *)
Theorem acyclic_connections G scc_list orders items :
  Forall (λ item : string * option string,
            match item.2 with
            | Some out_abs => matching_sets scc_list out_abs item.1 = []
            | None => True
            end) items →
  extract_connections walk G scc_list orders items
  = Ok (plain_connection <$> defined_sources items,
        {| sys_pathnames_list := []; sys_pathnames_dict := ∅ |}).
Proof.
  intros Hnone. unfold extract_connections.
  generalize ({| sys_pathnames_list := []; sys_pathnames_dict := ∅ |}).
  assert (∀ cl0 st,
    for_each items (connect walk G scc_list orders) cl0 st
    = Ok (cl0 ++ (plain_connection <$> defined_sources items), st)) as Hgen.
  { induction Hnone as [|[in_abs [out_abs|]] items Hitem _ IH]; intros cl0 st.
    - simpl. by rewrite app_nil_r.
    - rewrite for_each_cons. unfold connect at 1, cycle_edges. simpl in *.
      unfold mbind, M_bind at 1. unfold mbind, M_bind at 1.
      rewrite scc_loop_no_match by exact Hitem. simpl.
      rewrite IH. by rewrite <- app_assoc.
    - rewrite for_each_cons. simpl. by rewrite IH. }
  intros st. by rewrite Hgen.
Qed.

(** ** The whole build *)

Global Instance opt_le_antisym : AntiSymm (=) opt_le.
Proof.
  intros [a|] [b|]; simpl; try done. intros ??. f_equal. by apply (anti_symm String.le).
Qed.

Global Instance item_le_antisym : AntiSymm (=) item_le.
Proof. unfold item_le. apply _. Qed.

Lemma sorted_items_perm d1 d2 : d1 ≡ₚ d2 → sorted_items d1 = sorted_items d2.
Proof.
  intros Hp. apply (Sorted_unique item_le); [apply sorted_items_Sorted..|].
  by rewrite !sorted_items_Permutation.
Qed.

Lemma sorted_items_idemp d : sorted_items (sorted_items d) = sorted_items d.
Proof. apply sorted_items_perm, sorted_items_Permutation. Qed.

Lemma get_tree_dict_conn root d is_parallel st :
  get_tree_dict (set_conn_global_abs_in2out root d) is_parallel st
  = get_tree_dict root is_parallel st.
Proof. by destruct root. Qed.

Lemma build_returned_conn root d drv :
  is_Group root = true →
  sorted_items d = sorted_items (conn_global_abs_in2out root) →
  (build (set_conn_global_abs_in2out root d) drv).2 = (build root drv).2.
Proof.
  intros Hg Hs. destruct root as [|a pg conn subs]; [done|].
  unfold build_data_dict. rewrite get_tree_dict_conn.
  destruct (get_tree_dict _ false (∅, 0)) as [[tree [orders idx]]|e]; [|done].
  simpl in *. by rewrite Hs.
Qed.

Lemma returned_with_connections ds d :
  sorted_items d = sorted_items (connections_of ds) →
  returned (get_viewer_data (with_connections ds d)) = returned (get_viewer_data ds).
Proof.
  intros Hs. destruct ds as [[m drv]|s|f|]; simpl in *; try done.
  - destruct m as [|a pg conn subs]; [done|]. simpl.
    pose proof (build_returned_conn (Group a pg conn subs) d (driver_dict_of drv)
                  eq_refl Hs) as Hb. simpl in Hb.
    destruct (build (Group a pg d subs) _) as [r1 x1].
    destruct (build (Group a pg conn subs) _) as [r2 x2]. simpl in *. done.
  - destruct s as [|a pg conn subs]; [done|]. simpl.
    case_decide; [|done].
    pose proof (build_returned_conn (Group a pg conn subs) d no_driver eq_refl Hs)
      as Hb. simpl in Hb.
    destruct (build (Group a pg d subs) _) as [r1 x1].
    destruct (build (Group a pg conn subs) _) as [r2 x2]. simpl in *. done.
Qed.

(** X12: the order in which the connection mapping of the model is
    iterated does not show in what the build returns: a model whose
    mapping holds the same entries in another order gets the same
    snapshot, or the same error. *)
Theorem returned_order_independent ds d :
  d ≡ₚ connections_of ds →
  returned (get_viewer_data (with_connections ds d)) = returned (get_viewer_data ds).
Proof. intros Hp. by apply returned_with_connections, sorted_items_perm. Qed.

Lemma source_after_cases ds :
  source_after (get_viewer_data ds) = ds
  ∨ (source_after (get_viewer_data ds)
     = with_connections ds (sorted_items (connections_of ds))
     ∧ ∃ root tree st, root_group_of ds = Some root
         ∧ get_tree_dict root false (∅, 0) = Ok (tree, st)).
Proof.
  destruct (root_group_of ds) as [root|] eqn:Er.
  - destruct (get_viewer_data_live allgather compute_sys_graph
                strongly_connected_components walk get_design_vars get_responses
                problem_metadata ds root Er) as (Hg & _ & _ & Hsrc).
    rewrite Hsrc, build_fst_Ok by done.
    rewrite (connections_of_root ds root Er).
    destruct (get_tree_dict root false (∅, 0)) as [[tree st]|e] eqn:Et.
    + right. split; [by destruct root|]. by exists root, tree, st.
    + left. rewrite <- (connections_of_root ds root Er).
      apply with_connections_same.
  - left. destruct (is_filename ds) eqn:Hf.
    + by destruct ds.
    + by destruct (get_viewer_data_not_live allgather compute_sys_graph
                     strongly_connected_components walk get_design_vars get_responses
                     problem_metadata ds Er Hf).
Qed.

Lemma connections_of_with ds d :
  root_group_of ds ≠ None → connections_of (with_connections ds d) = d.
Proof.
  destruct ds as [[m drv]|s|f|]; simpl; try done.
  - by destruct m.
  - by destruct s.
Qed.

Lemma with_connections_twice ds d d' :
  with_connections (with_connections ds d) d' = with_connections ds d'.
Proof.
  destruct ds as [[m drv]|s|f|]; simpl; try done.
  - by destruct m.
  - by destruct s.
Qed.

Lemma root_group_of_with ds d root :
  root_group_of ds = Some root →
  root_group_of (with_connections ds d) = Some (set_conn_global_abs_in2out root d).
Proof.
  destruct ds as [[m drv]|s|f|]; simpl; try done.
  - destruct m as [|a pg conn subs]; simpl; [done|]. by intros [= <-].
  - destruct s as [|a pg conn subs]; simpl; [done|]. case_decide; [|done].
    by intros [= <-].
Qed.

(** X13: a second build, on the model as the first one left it, leaves
    the model as it is and returns what the first one returned. *)
Theorem second_build_same ds :
  let run := _get_viewer_data allgather compute_sys_graph
               strongly_connected_components walk get_design_vars get_responses
               problem_metadata in
  source_after (run (source_after (run ds))) = source_after (run ds)
  ∧ returned (run (source_after (run ds))) = returned (run ds).
Proof.
  intros run. unfold run. clear run.
  destruct (source_after_cases ds) as [Hsame|[Hs (root & tree & st & Hr & Ht)]];
    [by rewrite !Hsame|].
  rewrite Hs. split.
  - set (ds1 := with_connections ds (sorted_items (connections_of ds))).
    assert (root_group_of ds1 = Some (sorted_root root)) as Hr1.
    { unfold ds1, sorted_root.
      rewrite (connections_of_root ds root Hr). by apply root_group_of_with. }
    destruct (source_after_cases ds1) as [->|[Hs1 _]]; [done|].
    rewrite Hs1. unfold ds1. rewrite with_connections_twice.
    rewrite connections_of_with by congruence. by rewrite sorted_items_idemp.
  - apply returned_with_connections. by rewrite sorted_items_idemp.
Qed.



Lemma omap_ext_in {A B} (f g : A → option B) (l : list A) :
  (∀ x, x ∈ l → f x = g x) → omap f l = omap g l.
Proof.
  induction l as [|x l IH]; intros Hfg; [done|].
  assert (omap f l = omap g l) as Hl.
  { apply IH. intros y Hy. apply Hfg. by right. }
  simpl. rewrite (Hfg x) by (by left). destruct (g x); simpl; [f_equal|]; exact Hl.
Qed.

Lemma omap_keys_get {V} (d : odict V) :
  NoDup (keys d) →
  omap (λ k, (λ v, (k, v)) <$> odict_get d k) (keys d) = d.
Proof.
  induction d as [|[k v] d IH]; [done|]. intros [Hk Hnd]%NoDup_cons.
  simpl. rewrite decide_True by done. simpl. f_equal.
  rewrite <- (IH Hnd) at 2. apply omap_ext_in.
  intros k' Hk'. rewrite decide_False; [done|]. intros ->. done.
Qed.

(** X15: the driver entry of the snapshot of a problem holds the class
    name of the driver, its kind, a copy of its options, entry for
    entry, and its optimizer settings, which a DOE driver never gets. *)
Theorem problem_driver_entry p snap :
  NoDup (keys (driver_options (driver p))) →
  returned (get_viewer_data (OfProblem p)) = Ok snap →
  snap ≠ [] →
  odict_get snap "driver"
  = Some (VDriver
            {| dd_name := Some (driver_class_name (driver p));
               dd_type := Some (if driver_is_DOEDriver (driver p)
                                then "doe" else "optimization");
               dd_options := Some (driver_options (driver p));
               dd_opt_settings := if driver_is_DOEDriver (driver p) then None
                                  else driver_opt_settings (driver p) |}).
Proof.
  intros Hnd Hret Hne.
  destruct (live_snapshot_inv allgather compute_sys_graph
              strongly_connected_components walk get_design_vars get_responses
              problem_metadata (OfProblem p) snap eq_refl Hret)
    as [->|(root & tree & idx & cl & ix & _ & _ & _ & _ & ->)]; [done|].
  simpl. unfold driver_dict_of. rewrite omap_keys_get by done.
  by destruct (driver_is_DOEDriver (driver p)).
Qed.

(** ** Pathnames *)

Lemma rsplit_last_dot p v :
  rsplit_last "." v = None → rsplit_last "." (p +:+ "." +:+ v) = Some (p, v).
Proof.
  intros Hv. induction p as [|c p IH].
  - change (EmptyString +:+ "." +:+ v) with (String "." v). simpl.
    rewrite Hv. by rewrite ?decide_True.
  - change (String c p +:+ "." +:+ v) with (String c (p +:+ "." +:+ v)).
    simpl. by rewrite IH.
Qed.

(** X16: the owner of a variable: splitting the absolute name
    [pathname.var] at its last dot gives back [pathname], whatever dots
    the pathname has, when [var] has none; and a name without a dot is
    its own owner. *)
Theorem owner_of_variable pathname var :
  rsplit_last "." var = None →
  rsplit_dot_0 (pathname +:+ "." +:+ var) = pathname
  ∧ rsplit_dot_0 var = var.
Proof.
  intros Hv. unfold rsplit_dot_0, rsplit1.
  by rewrite rsplit_last_dot, Hv.
Qed.

(** ** The dict that is serialized *)

Lemma odict_get_set {V} (d : odict V) k v k' :
  odict_get (odict_set d k v) k' = if decide (k = k') then Some v else odict_get d k'.
Proof.
  induction d as [|[k0 v0] d IH]; simpl.
  - by repeat case_decide.
  - repeat (case_decide; simpl; subst); try done; congruence.
Qed.

Lemma keys_odict_set {V} (d : odict V) k v :
  keys (odict_set d k v) = if decide (k ∈ keys d) then keys d else keys d ++ [k].
Proof.
  induction d as [|[k0 v0] d IH]; [done|].
  simpl. destruct (decide (k0 = k)) as [->|Hne]; simpl.
  - rewrite decide_True; [done|]. by left.
  - unfold keys in *. rewrite IH.
    destruct (decide (k ∈ d.*1)) as [Hin|Hnin].
    + rewrite decide_True; [done|]. by right.
    + rewrite decide_False; [done|]. intros [?|?]%elem_of_cons; congruence.
Qed.

Lemma odict_get_of_snapshot snap k :
  odict_get (of_snapshot snap) k = OfSnapshot <$> odict_get snap k.
Proof.
  induction snap as [|[k0 v0] d IH]; [done|]. simpl. by case_decide.
Qed.

(** X17: the dict [view_model] serializes is what [_get_viewer_data]
    returned with [options] set: every other key keeps its value and its
    place, [options] goes last, or stays where it was if the returned
    dict already had it; an error of [_get_viewer_data] is passed on. *)
Theorem view_model_data_options ds flag :
  match returned (get_viewer_data ds) with
  | Raise e => view_model_data (returned (get_viewer_data ds)) flag = Raise e
  | Ok snap =>
      ∃ md, view_model_data (returned (get_viewer_data ds)) flag = Ok md
        ∧ odict_get md "options" = Some (Options flag)
        ∧ (∀ k, k ≠ "options" → odict_get md k = OfSnapshot <$> odict_get snap k)
        ∧ keys md = (if decide ("options" ∈ keys snap) then keys snap
                     else keys snap ++ ["options"])
  end.
Proof.
  destruct (returned (get_viewer_data ds)) as [snap|e]; [|done].
  eexists. split; [reflexivity|]. split_and!.
  - rewrite odict_get_set. by rewrite decide_True.
  - intros k Hk. rewrite odict_get_set, decide_False by done. apply odict_get_of_snapshot.
  - rewrite keys_odict_set.
    assert (keys (of_snapshot snap) = keys snap) as ->; [|done].
    unfold keys, of_snapshot. rewrite <- list_fmap_compose.
    apply list_fmap_ext. by intros ? [].
Qed.

(** ** The declared partials *)


End More.

(** * More properties at the example models *)




Lemma tree_builder_raises_KeyError_witness :
  KeyError = KeyError ∧ ¬ Forall leaf_vars_known (leaf_components ex_unknown).
Proof.
  apply (tree_builder_raises_KeyError ex_allgather ex_unknown false (∅, 0) KeyError).
  vm_compute. reflexivity.
Defined.

Lemma tree_mirrors_leaves_witness :
  component_names ex_tree = shown_name <$> leaf_components ex_feedback.
Proof.
  apply (tree_mirrors_leaves ex_allgather ex_feedback false (∅, 0) ex_tree
           (ex_orders, 2)); vm_compute; reflexivity.
Defined.

Lemma is_parallel_inherited_witness :
  (false || is_ParallelGroup ex_parallel = true →
   Forall (λ d, t_is_parallel d = true) (sys_nodes ex_parallel_tree))
  ∧ (false = false → has_parallel_group ex_parallel = false →
     Forall (λ d, t_is_parallel d = false) (sys_nodes ex_parallel_tree)).
Proof.
  apply (is_parallel_inherited ex_allgather ex_parallel false (∅, 0)
           ex_parallel_tree (ex_orders, 2)); vm_compute; reflexivity.
Defined.

Lemma nonzero_rank_children_discarded_witness :
  children_of ex_two_procs_tree = concat (ex_allgather_2 ex_two_procs_attrs [])
  ∧ (({[ "B" := 0 ]} : gmap string nat), 1)
    = foldl record_leaf (∅, 0) (leaf_pathnames ex_two_procs).
Proof.
  apply (nonzero_rank_children_discarded ex_allgather_2 ex_two_procs_attrs true []
           ex_B_rank1 [] false (∅, 0) ex_two_procs_tree ({[ "B" := 0 ]}, 1));
    [simpl; lia | simpl; lia | vm_compute; reflexivity].
Defined.

Lemma pathname_index_exact_witness :
  (∀ p i, sys_pathnames_dict ex_index !! p = Some i
          ↔ sys_pathnames_list ex_index !! i = Some p)
  ∧ NoDup (sys_pathnames_list ex_index)
  ∧ ∀ p, p ∈ sys_pathnames_list ex_index → ∃ li, li ∈ ex_cycle ∧ p ∈ li.
Proof.
  apply (pathname_index_exact adjacency_walk ex_G ex_cycle ex_orders ex_sorted_conn ex_connections
           ex_index).
  vm_compute. reflexivity.
Defined.

Lemma ex_orders_cover : orders_cover ex_orders_3 ex_overlap.
Proof.
  intros li n Hli Hn. unfold ex_overlap in Hli.
  repeat (apply elem_of_cons in Hli as [->|Hli]); [| |by apply not_elem_of_nil in Hli];
    set_unfold; destruct_or!; subst; vm_compute; eauto.
Qed.

Lemma extract_connections_total_witness :
  ∃ cl ix, extract_connections adjacency_walk ex_G (take 1 ex_overlap) ex_orders_3 ex_sorted_conn
           = Ok (cl, ix).
Proof.
  apply (extract_connections_total adjacency_walk ex_G (take 1 ex_overlap) ex_orders_3 ex_sorted_conn).
  - intros li n Hli Hn. apply (ex_orders_cover li n); [|done].
    simpl in Hli. apply list_elem_of_singleton in Hli as ->. by left.
  - repeat constructor; simpl; vm_compute; lia.
Defined.

Lemma extract_connections_raises_ValueError_witness :
  ValueError = ValueError
  ∧ ∃ in_abs out_abs,
      (in_abs, Some out_abs) ∈ ex_sorted_conn
      ∧ 2 ≤ length (matching_sets ex_overlap out_abs in_abs).
Proof.
  apply (extract_connections_raises_ValueError adjacency_walk ex_G ex_overlap ex_orders_3
           ex_sorted_conn ValueError);
    [exact ex_orders_cover | vm_compute; reflexivity].
Defined.

Lemma cycle_arrows_exact_witness :
  Forall2 (λ decl c,
             ∃ edges_list edges,
               c = emit_connection decl.2 decl.1 edges_list
               ∧ Forall2 (reads (sys_pathnames_list ex_ring_index)) edges_list edges
               ∧ edges ≡ₚ window_cycle_edges ex_ring ex_ring_scc ex_orders_3
                            decl.2 decl.1)
    (defined_sources ex_ring_conn) ex_ring_connections.
Proof.
  apply (cycle_arrows_exact backward_walk ex_ring ex_ring_scc ex_orders_3
           ex_ring_conn ex_ring_connections ex_ring_index).
  vm_compute. reflexivity.
Defined.

Lemma acyclic_connections_witness :
  extract_connections adjacency_walk ex_G ex_elsewhere ∅ ex_sorted_conn
  = Ok (plain_connection <$> defined_sources ex_sorted_conn,
        {| sys_pathnames_list := []; sys_pathnames_dict := ∅ |}).
Proof.
  apply (acyclic_connections adjacency_walk ex_G ex_elsewhere ∅ ex_sorted_conn).
  repeat constructor; simpl; vm_compute; reflexivity.
Defined.

Lemma returned_order_independent_witness :
  returned (ex_run (with_connections (OfSystem ex_feedback) ex_sorted_conn))
  = returned (ex_run (OfSystem ex_feedback)).
Proof.
  apply (returned_order_independent ex_allgather ex_graph ex_scc adjacency_walk ex_vars ex_vars
           ex_metadata (OfSystem ex_feedback) ex_sorted_conn).
  apply (reverse_Permutation ex_conn).
Defined.


Lemma problem_driver_entry_witness :
  odict_get ex_problem_snap "driver"
  = Some (VDriver
            {| dd_name := Some "Driver";
               dd_type := Some "optimization";
               dd_options := Some [("debug_print", PyObj "list")];
               dd_opt_settings := None |}).
Proof.
  apply (problem_driver_entry ex_allgather ex_graph ex_scc adjacency_walk ex_vars ex_vars
           ex_metadata ex_problem ex_problem_snap);
    [compute_done | vm_compute; reflexivity | discriminate].
Defined.

Lemma owner_of_variable_witness :
  rsplit_dot_0 ("sub.comp" +:+ "." +:+ "x") = "sub.comp" ∧ rsplit_dot_0 "x" = "x".
Proof. apply (owner_of_variable "sub.comp" "x"). reflexivity. Defined.
